(** * LectureMate: the segment clean-up pipeline of [transcribe_audio]

    A shallow embedding of the post-recognition part of
    [server/scripts/transcribe_audio.py] (the loop over the recognised
    segments, the three [re.sub] rewrites, the phrase-repetition loop and
    the result dictionary), with the properties the design document states
    about it. *)

From Stdlib Require Import ZArith NArith QArith Lia List Ascii String.
From stdpp Require Import base decidable option list countable gmap.
From Equations Require Import Equations.
From Equations.Prop Require Logic.
From Stdlib Require Decimal DecimalN.

Local Open Scope nat_scope.

(** ** Python strings

    A [str] is a sequence of Unicode code points. *)

Definition char := N.
Definition str := list char.

(** An ASCII literal as a [str]. *)
Fixpoint lit (s : string) : str :=
  match s with
  | EmptyString => []
  | String a rest => N_of_ascii a :: lit rest
  end.

(** [a == b] on strings. *)
Fixpoint eqb_str (a b : str) : bool :=
  match a, b with
  | [], [] => true
  | x :: a', y :: b' => N.eqb x y && eqb_str a' b'
  | _, _ => false
  end.

(** [Py_UNICODE_ISSPACE]: the one whitespace test that [str.strip],
    [str.split] and the pattern [\s] of [re] all use on a [str]. *)
Definition whitespace_points : list N :=
  [9; 10; 11; 12; 13; 28; 29; 30; 31; 32; 133; 160; 5760;
   8192; 8193; 8194; 8195; 8196; 8197; 8198; 8199; 8200; 8201; 8202;
   8232; 8233; 8239; 8287; 12288]%N.

Definition is_space (c : char) : bool :=
  existsb (N.eqb c) whitespace_points.

Definition SPACE : char := 32%N.

(** [s.strip()] *)
Fixpoint lstrip (s : str) : str :=
  match s with
  | [] => []
  | c :: rest => if is_space c then lstrip rest else s
  end.

Fixpoint rstrip (s : str) : str :=
  match s with
  | [] => []
  | c :: rest =>
      match rstrip rest with
      | [] => if is_space c then [] else [c]
      | kept => c :: kept
      end
  end.

Definition strip (s : str) : str := rstrip (lstrip s).

(** [s.split()]: the maximal runs of non-whitespace characters.  [cur] is
    the word being scanned. *)
Fixpoint split_from (cur : str) (s : str) : list str :=
  match s with
  | [] => match cur with [] => [] | _ => [cur] end
  | c :: rest =>
      if is_space c
      then match cur with
           | [] => split_from [] rest
           | _ => cur :: split_from [] rest
           end
      else split_from (cur ++ [c]) rest
  end.

Definition split (s : str) : list str := split_from [] s.

(** [' '.join(ws)] *)
Fixpoint join (ws : list str) : str :=
  match ws with
  | [] => []
  | [w] => w
  | w :: rest => w ++ SPACE :: join rest
  end.

(** [needle in hay] for strings. *)
Fixpoint starts_with (needle hay : str) : bool :=
  match needle, hay with
  | [], _ => true
  | x :: n', y :: h' => N.eqb x y && starts_with n' h'
  | _ :: _, [] => false
  end.

Fixpoint contains (hay needle : str) : bool :=
  starts_with needle hay ||
  match hay with
  | [] => false
  | _ :: rest => contains rest needle
  end.

(** [s[k:]] with Python's treatment of a negative or too large [k]. *)
Definition slice_from (s : str) (k : Z) : str :=
  let n := Z.of_nat (length s) in
  let start := if (k <? 0)%Z then Z.max 0 (n + k) else Z.min k n in
  drop (Z.to_nat start) s.

(** [ws[i:j]] for [0 <= i], [0 <= j]. *)
Definition slice {A} (l : list A) (i j : nat) : list A :=
  take (j - i) (drop i l).

(** [len(set(s))] *)
Definition distinct_chars (s : str) : nat :=
  size (list_to_set s : gset char).

(** ** Python floats in the similarity test

    [p / q] on ints is the double nearest to the exact quotient, ties to
    the even mantissa.  A double is modelled by the rational it denotes.
    Only quotients of set sizes occur, so [0 <= p <= q] and [0 < q]. *)

Definition round_half_even (n d : Z) : Z :=
  let m := (n / d)%Z in
  let r := (n mod d)%Z in
  if (2 * r <? d)%Z then m
  else if (d <? 2 * r)%Z then (m + 1)%Z
  else if Z.even m then m else (m + 1)%Z.

(** The binary scale [k] with [2^52 <= p * 2^k / q < 2^53]. *)
Definition scale (p q : Z) : Z :=
  let k0 := (52 + Z.log2 q - Z.log2 p)%Z in
  if (p * 2 ^ k0 / q <? 2 ^ 52)%Z then (k0 + 1)%Z else k0.

Definition truediv (p q : Z) : Q :=
  if (p =? 0)%Z then 0%Q
  else
    let k := scale p q in
    Qmake (round_half_even (p * 2 ^ k) q) (Z.to_pos (2 ^ k)).

(** The literal [0.7]: the double nearest to 7/10. *)
Definition float_0_7 : Q := truediv 7 10.

(** [a > b] on floats. *)
Definition float_gt (a b : Q) : bool := negb (Qle_bool a b).

(** ** Segments and the loop state *)

(** A segment as the engine yields it, and as the loop records it:
    [text], [start], [end]. *)
Record SegmentRecord := mkSegment {
  text : str;
  start : Q;
  end_ : Q
}.

(** The local variables of the loop. *)
Record State := mkState {
  full_text : str;
  segments_list : list SegmentRecord;
  segment_count : nat;
  last_segment_text : str;
  repetition_count : nat
}.

Definition initial : State :=
  {| full_text := []; segments_list := []; segment_count := 0;
     last_segment_text := []; repetition_count := 0 |}.

(** Which branch of the loop body a segment takes. *)
Inductive Outcome :=
| QualitySkip      (* one of the two first [continue]s *)
| NearDuplicate    (* "Skipping repetitive segment" *)
| ExactDuplicate   (* "Skipping exact repetition" *)
| Accepted.

(** The characters of ['.،,!?؛'] (line 293). *)
Definition joining_punctuation : list char := [46; 1548; 44; 33; 63; 1563]%N.

(** [segment_text[0] in '.،,!?؛'].  Indexing the empty string raises; the
    loop only gets here with at least two characters. *)
Definition starts_with_punctuation (s : str) : bool :=
  match s with
  | [] => false
  | c :: _ => existsb (N.eqb c) joining_punctuation
  end.

Definition nonempty {A} (l : list A) : bool :=
  match l with [] => false | _ => true end.

Section Pipeline.

(** [str.lower]: Unicode's full lower-casing, taken as given. *)
Variable lower : str -> str.

(** [set(s.lower().split())] *)
Definition word_set (s : str) : gset str := list_to_set (split (lower s)).

(** [len(a & b) / len(a | b)] *)
Definition similarity (a b : gset str) : Q :=
  truediv (Z.of_nat (size (a ∩ b))) (Z.of_nat (size (a ∪ b))).

(** Lines 275-284: the test that leads to "Skipping repetitive segment". *)
Definition is_repetitive (last_segment_text segment_text : str) : bool :=
  if nonempty last_segment_text then
    let last_words := word_set last_segment_text in
    let current_words := word_set segment_text in
    if negb (size last_words =? 0) && negb (size current_words =? 0) then
      float_gt (similarity last_words current_words) float_0_7
    else false
  else false.

(** Line 287: [segment_text in full_text[-len(segment_text)*3:]] *)
Definition is_exact_repetition (full_text segment_text : str) : bool :=
  contains (slice_from full_text (- Z.of_nat (length segment_text) * 3))
           segment_text.

Definition skip_repetition (st : State) : State :=
  {| full_text := full_text st;
     segments_list := segments_list st;
     segment_count := segment_count st;
     last_segment_text := last_segment_text st;
     repetition_count := repetition_count st + 1 |}.

(** Lines 292-303. *)
Definition append_segment (st : State) (segment : SegmentRecord)
    (segment_text : str) : State :=
  let spaced :=
    if nonempty (full_text st) && negb (starts_with_punctuation segment_text)
    then full_text st ++ [SPACE] else full_text st in
  {| full_text := spaced ++ segment_text;
     segments_list :=
       segments_list st ++
         [{| text := segment_text; start := start segment; end_ := end_ segment |}];
     segment_count := segment_count st + 1;
     last_segment_text := segment_text;
     repetition_count := repetition_count st |}.

(** One iteration of [for segment in segments] (lines 262-303). *)
Definition process_segment (st : State) (segment : SegmentRecord)
    : Outcome * State :=
  let segment_text := strip (text segment) in
  if negb (nonempty segment_text) || (length segment_text <? 2) then
    (QualitySkip, st)
  else if distinct_chars segment_text <? 3 then
    (QualitySkip, st)
  else if is_repetitive (last_segment_text st) segment_text then
    (NearDuplicate, skip_repetition st)
  else if is_exact_repetition (full_text st) segment_text then
    (ExactDuplicate, skip_repetition st)
  else
    (Accepted, append_segment st segment segment_text).

(** The whole loop, from a given state. *)
Definition run_from (st : State) (segments : list SegmentRecord) : State :=
  fold_left (fun s seg => snd (process_segment s seg)) segments st.

Definition run (segments : list SegmentRecord) : State :=
  run_from initial segments.

End Pipeline.

(** Lower-casing of the ASCII letters; [str.lower] agrees with it on
    every string of ASCII characters. *)
Definition ascii_lower (s : str) : str :=
  map (fun c => if (65 <=? c)%N && (c <=? 90)%N then (c + 32)%N else c) s.

Definition seg (s : string) : SegmentRecord :=
  {| text := lit s; start := 0; end_ := 0 |}.

(** ** [re.sub] and the three clean-up rewrites (lines 306-308)

    A pattern is given by what it does at the head of the text: the
    replacement for the match found there, and the text left after the
    match.  [re.sub] scans left to right, replaces each match and copies
    every character at which the pattern does not match. *)

Definition matcher := str -> option (str * str).

Fixpoint sub_loop (fuel : nat) (m : matcher) (s : str) : str :=
  match fuel with
  | 0 => s
  | S fuel' =>
      match s with
      | [] => []
      | c :: rest =>
          match m s with
          | Some (repl, after) => repl ++ sub_loop fuel' m after
          | None => c :: sub_loop fuel' m rest
          end
      end
  end.

(** Each match takes at least one character, so [len(s)] rounds are
    enough (lemma [sub_loop_enough]). *)
Definition re_sub (m : matcher) (s : str) : str := sub_loop (length s) m s.

(** The characters of the class [[.,!?;:،؛]]. *)
Definition punctuation : list char := [46; 44; 33; 63; 59; 58; 1548; 1563]%N.

Definition is_punct (c : char) : bool := existsb (N.eqb c) punctuation.

(** [\s+] replaced by [' ']. *)
Definition spaces_to_one : matcher := fun s =>
  match s with
  | c :: rest => if is_space c then Some ([SPACE], lstrip rest) else None
  | [] => None
  end.

(** [\s+([.,!?;:،؛])] replaced by [\1].  No whitespace character is in
    the class, so the run is a match exactly when the character after the
    whole run is in it. *)
Definition space_before_punct : matcher := fun s =>
  match s with
  | c :: rest =>
      if is_space c then
        match lstrip rest with
        | p :: after => if is_punct p then Some ([p], after) else None
        | [] => None
        end
      else None
  | [] => None
  end.

(** [([.,!?;:،؛])([^\s])] replaced by [\1 \2]. *)
Definition punct_then_char : matcher := fun s =>
  match s with
  | p :: c :: after =>
      if is_punct p && negb (is_space c) then Some ([p; SPACE; c], after)
      else None
  | _ => None
  end.

Definition normalize (full_text : str) : str :=
  let full_text := strip (re_sub spaces_to_one full_text) in
  let full_text := re_sub space_before_punct full_text in
  re_sub punct_then_char full_text.

(** ** Phrase-level repetitions (lines 311-332) *)

(** The test of one [phrase_len] at position [i]. *)
Definition repeats_at (words : list str) (i phrase_len : nat) : bool :=
  (i + phrase_len * 2 <=? length words) &&
  eqb_str (join (slice words i (i + phrase_len)))
          (join (slice words (i + phrase_len) (i + phrase_len * 2))).

(** [for phrase_len in range(5, 1, -1)] up to its [break]. *)
Definition find_repetition (words : list str) (i : nat) : option nat :=
  List.find (repeats_at words i) [5; 4; 3; 2].

(** [while i < len(words)] *)
Equations? dedup_loop (words : list str) (i : nat) (cleaned_words : list str)
    : list str by wf (length words - i) lt :=
  dedup_loop words i cleaned_words with lt_dec i (length words) := {
    | right _ => cleaned_words
    | left _ with Equations.Prop.Logic.inspect (find_repetition words i) := {
        | exist _ (Some phrase_len) _ =>
            dedup_loop words (i + phrase_len * 2)
              (cleaned_words ++ slice words i (i + phrase_len))
        | exist _ None _ =>
            dedup_loop words (i + 1) (cleaned_words ++ [nth i words []]) } }.
Proof.
  - unfold find_repetition in e. apply List.find_some in e as [Hin _].
    simpl in Hin. lia.
  - lia.
Qed.

Definition dedup_phrases (full_text : str) : str :=
  join (dedup_loop (split full_text) 0 []).

(** ** The result *)

Record Transcript := mkTranscript {
  transcript : str;
  wordCount : nat;
  characterCount : nat;
  language : str;
  segments : list SegmentRecord
}.

(** The returned dictionary: [success: True] with the transcript fields,
    or [success: False] with [error] and [details]. *)
Inductive Envelope :=
| Success (t : Transcript)
| Failure (error : str) (details : str).

(** The engine's lazy segment sequence: it ends after [segs], or raises
    after them (the message and the traceback text). *)
Inductive Source :=
| Yields (segs : list SegmentRecord)
| Raises (segs : list SegmentRecord) (message traceback : str).

Section Result.

Variable lower : str -> str.

(** Lines 305-346, from the state the loop ends in. *)
Definition finish (detected_language : str) (st : State) : Transcript :=
  let full_text := dedup_phrases (normalize (full_text st)) in
  {| transcript := full_text;
     wordCount := length (split full_text);
     characterCount := length full_text;
     language := detected_language;
     segments := segments_list st |}.

(** Lines 255-357: the loop, the clean-up and the [except] clause. *)
Definition collect (detected_language : str) (src : Source) : Envelope :=
  match src with
  | Yields segs => Success (finish detected_language (run lower segs))
  | Raises _ message traceback =>
      Failure (lit "Transcription failed: " ++ message) traceback
  end.

End Result.

(** ** The design document's vocabulary *)

Definition similarityThreshold : Q := 7 # 10.
Definition exactMatchWindowMultiplier : nat := 3.
Definition minSegmentChars : nat := 2.
Definition minDistinctChars : nat := 3.
Definition maxPhraseLen : nat := 5.
Definition minPhraseLen : nat := 2.

(** QualityFilter: [true] when the segment is rejected. *)
Definition QualityFilter_rejects (segment : SegmentRecord) : bool :=
  (length (strip (text segment)) <? minSegmentChars) ||
  (distinct_chars (strip (text segment)) <? minDistinctChars).

(** Jaccard similarity of two token sets, as an exact fraction. *)
Definition jaccard (a b : gset str) : Q :=
  Qmake (Z.of_nat (size (a ∩ b))) (Pos.of_nat (size (a ∪ b))).

(** The last [n] characters of [s]. *)
Definition last_chars (n : nat) (s : str) : str := drop (length s - n) s.

Definition tailWindow (runningText candidateText : str) : str :=
  last_chars (exactMatchWindowMultiplier * length candidateText) runningText.

(** The spacing rule of the assembler, for one appended text. *)
Definition append_spaced (runningText new : str) : str :=
  match runningText, new with
  | [], _ => new
  | _, c :: _ =>
      if existsb (N.eqb c) joining_punctuation then runningText ++ new
      else runningText ++ SPACE :: new
  | _, [] => runningText ++ [SPACE]
  end.

(** Concatenation-with-spacing of the accepted texts in arrival order. *)
Definition assemble (texts : list str) : str := fold_left append_spaced texts [].

(** The branches taken along a stream. *)
Fixpoint trace_from (lower : str -> str) (st : State)
    (segments : list SegmentRecord) : list Outcome :=
  match segments with
  | [] => []
  | segment :: rest =>
      let r := process_segment lower st segment in
      fst r :: trace_from lower (snd r) rest
  end.

Definition trace (lower : str -> str) (segments : list SegmentRecord)
    : list Outcome :=
  trace_from lower initial segments.

Definition is_rejection (o : Outcome) : bool :=
  match o with Accepted => false | _ => true end.

Definition is_repetition (o : Outcome) : bool :=
  match o with NearDuplicate | ExactDuplicate => true | _ => false end.

Definition is_accepted (o : Outcome) : bool :=
  match o with Accepted => true | _ => false end.

(** "Every rejection is counted": the rejection counter of the final state
    is the number of rejected segments. *)
Definition rejections_counted (lower : str -> str)
    (segments : list SegmentRecord) : Prop :=
  repetition_count (run lower segments)
  = length (List.filter is_rejection (trace lower segments)).

(** PhraseDeduplicator as the design document words it, on the words that
    remain from position [i] on: slices are compared as word sequences. *)
Definition slices_repeat (rest : list str) (L : nat) : bool :=
  (2 * L <=? length rest) &&
  bool_decide (take L rest = take L (drop L rest)).

Fixpoint PhraseDeduplicator_from (fuel : nat) (rest : list str) : list str :=
  match fuel, rest with
  | 0, _ => []
  | _, [] => []
  | S fuel', w :: rest' =>
      match List.find (slices_repeat rest) [5; 4; 3; 2] with
      | Some L => take L rest ++ PhraseDeduplicator_from fuel' (drop (2 * L) rest)
      | None => w :: PhraseDeduplicator_from fuel' rest'
      end
  end.

Definition PhraseDeduplicator (words : list str) : list str :=
  PhraseDeduplicator_from (length words) words.

(** ** Predicates used in the proofs *)

(** The loop invariant: the running text and the counter follow the
    accepted segments. *)
Definition assembled (st : State) : Prop :=
  full_text st = assemble (map text (segments_list st)) /\
  segment_count st = length (segments_list st).

(** A word of [split]: no whitespace in it. *)
Definition spaceless (w : str) : Prop := Forall (fun c => is_space c = false) w.

(** A pattern whose matches are never empty. *)
Definition progressive (m : matcher) : Prop :=
  forall s repl after, m s = Some (repl, after) -> length after < length s.

(** No whitespace at the start. *)
Definition headed (s : str) : Prop :=
  match s with
  | c :: _ => is_space c = false
  | [] => True
  end.

(** Every whitespace character is one [' '], not followed by another. *)
Fixpoint collapsed (s : str) : Prop :=
  match s with
  | [] => True
  | c :: rest => (is_space c = true -> c = SPACE /\ headed rest) /\ collapsed rest
  end.

(** ... and followed by a character: no whitespace at the end either. *)
Fixpoint spaced (s : str) : Prop :=
  match s with
  | [] => True
  | c :: rest =>
      (is_space c = true -> c = SPACE /\ rest <> [] /\ headed rest) /\ spaced rest
  end.

(** No whitespace character directly before a punctuation mark. *)
Fixpoint unspaced (s : str) : Prop :=
  match s with
  | [] => True
  | c :: rest =>
      (is_space c = true ->
       match rest with d :: _ => is_punct d = false | [] => True end) /\
      unspaced rest
  end.

(** ** Further vocabulary for the segment loop *)

(** What the loop records for an accepted segment: the stripped text with
    the segment's own timestamps (lines 297-301). *)
Definition recorded (segment : SegmentRecord) : SegmentRecord :=
  {| text := strip (text segment); start := start segment; end_ := end_ segment |}.

(** Two states that differ at most in the repetition counter. *)
Definition same_output (st1 st2 : State) : Prop :=
  full_text st1 = full_text st2 /\
  segments_list st1 = segments_list st2 /\
  segment_count st1 = segment_count st2 /\
  last_segment_text st1 = last_segment_text st2.

(** The text of the last accepted segment, [''] when there is none. *)
Definition last_text (l : list SegmentRecord) : str :=
  match last l with
  | Some r => text r
  | None => []
  end.

(** The characters of a text that are not whitespace. *)
Definition ink (s : str) : str := List.filter (fun c => negb (is_space c)) s.

(** A word as [split] yields it. *)
Definition wordlike (w : str) : Prop := w <> [] /\ spaceless w.

(** ** The rest of [transcribe_audio] (lines 107-254, 348-357)

    What lies outside the program is given: the file system, the torch
    probing, the model constructor and the engine. *)

Record World := mkWorld {
  (** [os.path.exists] *)
  path_exists : str -> bool;
  (** an exception other than [ImportError] out of lines 124-134, by its
      message *)
  torch_probe : option str;
  (** an exception out of the GPU report of lines 139-145 *)
  gpu_report : option str;
  (** [WhisperModel(model_size, device=..., compute_type=...)]: [None] when
      the model loads, else the message of the exception *)
  WhisperModel : str -> str -> str -> option str;
  (** [model.transcribe] with the loaded device and compute type, and the
      iteration over its segments; with it [info.language] when there is one *)
  model_transcribe : str -> str -> Source * option str;
  (** [traceback.format_exc()] for an exception with this message *)
  format_exc : str -> str
}.

(** The returned dictionary of the whole function: the "File not found"
    dictionary has no [details]. *)
Inductive Reply :=
| Reply_not_found (error : str)
| Reply_result (e : Envelope).

Section Loading.

Variable lower : str -> str.
Variable w : World.

(** ["cudnn" in error_msg or "libcudnn" in error_msg] on [str(e).lower()] *)
Definition mentions_cudnn (e : str) : bool :=
  let error_msg := lower e in
  contains error_msg (lit "cudnn") || contains error_msg (lit "libcudnn").

Definition cudnn_error (e : str) : str :=
  lit "cuDNN libraries not found or incompatible. Run setup-gpu.sh to fix. Error: " ++ e.

Definition gpu_error (e : str) : str :=
  lit "GPU initialization failed. Check CUDA installation. Error: " ++ e.

(** Lines 137-174: the device and compute type that loaded, or the message
    of the exception that leaves the block; with it the constructor calls
    made, in order, as (device, compute type). *)
Definition load_model (model_size device : str)
    : (str * str + str) * list (str * str) :=
  if eqb_str device (lit "cuda") || eqb_str device (lit "gpu") then
    match gpu_report w with
    | Some e => (inr e, [])
    | None =>
        match WhisperModel w model_size (lit "cuda") (lit "float16") with
        | None => (inl (lit "cuda", lit "float16"), [(lit "cuda", lit "float16")])
        | Some e =>
            if mentions_cudnn e then
              (inr (cudnn_error e), [(lit "cuda", lit "float16")])
            else
              match WhisperModel w model_size (lit "cuda") (lit "int8_float16") with
              | None =>
                  (inl (lit "cuda", lit "int8_float16"),
                   [(lit "cuda", lit "float16"); (lit "cuda", lit "int8_float16")])
              | Some e2 =>
                  (inr (if mentions_cudnn e2 then cudnn_error e2 else gpu_error e2),
                   [(lit "cuda", lit "float16"); (lit "cuda", lit "int8_float16")])
              end
        end
    end
  else
    match WhisperModel w model_size (lit "cpu") (lit "int8") with
    | None => (inl (lit "cpu", lit "int8"), [(lit "cpu", lit "int8")])
    | Some e => (inr e, [(lit "cpu", lit "int8")])
    end.

(** The [except Exception as e] clause of lines 348-357. *)
Definition transcription_failed (e : str) : Envelope :=
  Failure (lit "Transcription failed: " ++ e) (format_exc w e).

(** Line 251: [info.language if hasattr(info, 'language') else language or
    'unknown']. *)
Definition detected (info_language language : option str) : str :=
  match info_language with
  | Some l => l
  | None =>
      match language with
      | Some l => if nonempty l then l else lit "unknown"
      | None => lit "unknown"
      end
  end.

(** The whole function: its result and the constructor calls it made. *)
Definition transcribe_audio (file_path model_size : str)
    (language : option str) (device : str) : Reply * list (str * str) :=
  if negb (path_exists w file_path) then
    (Reply_not_found (lit "File not found: " ++ file_path), [])
  else
    match torch_probe w with
    | Some e => (Reply_result (transcription_failed e), [])
    | None =>
        match load_model model_size device with
        | (inr e, calls) => (Reply_result (transcription_failed e), calls)
        | (inl (dev, compute_type), calls) =>
            let '(segments, info_language) := model_transcribe w dev compute_type in
            (Reply_result (collect lower (detected info_language language) segments),
             calls)
        end
    end.

End Loading.

(** ** The entry point of the script (lines 359-379) *)

Record Arguments := mkArguments {
  arg_file_path : str;
  arg_model_size : str;
  arg_language : option str;
  arg_device : str
}.

(** [sys.argv[k] if len(sys.argv) > k and sys.argv[k] else None] *)
Definition argv_at (argv : list str) (k : nat) : option str :=
  if (k <? length argv) && nonempty (nth k argv []) then Some (nth k argv [])
  else None.

(** [None] stands for the "File path is required" exit. *)
Definition parse_arguments (argv : list str) : option Arguments :=
  if length argv <? 2 then None
  else
    let file_path := nth 1 argv [] in
    let model_size := default (lit "base") (argv_at argv 2) in
    let language := argv_at argv 3 in
    let device := default (lit "cpu") (argv_at argv 4) in
    let language :=
      match language with
      | Some l => if eqb_str l (lit "None") || eqb_str l [] then None else Some l
      | None => None
      end in
    Some {| arg_file_path := file_path; arg_model_size := model_size;
            arg_language := language; arg_device := device |}.

(** ** [get_video_id] (get_transcript.py, lines 10-16) and the watch URL *)

(** The class [[0-9A-Za-z_-]]. *)
Definition is_id_char (c : char) : bool :=
  ((48 <=? c) && (c <=? 57))%N || ((65 <=? c) && (c <=? 90))%N ||
  ((97 <=? c) && (c <=? 122))%N || (c =? 95)%N || (c =? 45)%N.

(** [[0-9A-Za-z_-]{n}] at the head of the text. *)
Fixpoint take_id (n : nat) (s : str) : option str :=
  match n with
  | 0 => Some []
  | S n' =>
      match s with
      | c :: rest =>
          if is_id_char c then
            match take_id n' rest with
            | Some cs => Some (c :: cs)
            | None => None
            end
          else None
      | [] => None
      end
  end.

(** [(?:v=|\/)([0-9A-Za-z_-]{11})] at the head of the text: group 1. *)
Definition id_pattern (s : str) : option str :=
  if starts_with (lit "v=") s then take_id 11 (drop 2 s)
  else if starts_with (lit "/") s then take_id 11 (drop 1 s)
  else None.

(** [re.search]: the match at the leftmost position that has one. *)
Fixpoint search_id (s : str) : option str :=
  match id_pattern s with
  | Some id => Some id
  | None =>
      match s with
      | [] => None
      | _ :: rest => search_id rest
      end
  end.

Definition get_video_id (url : str) : option str := search_id url.

(** [f"https://www.youtube.com/watch?v={video_id}"] (get_video_info.py line
    15, download_youtube_audio.py line 38). *)
Definition watch_url (video_id : str) : str :=
  lit "https://www.youtube.com/watch?v=" ++ video_id.

(** A video id of the pattern's shape. *)
Definition video_id_shaped (id : str) : Prop :=
  length id = 11 /\ forallb is_id_char id = true.

(** ** [fetch_transcript] (get_transcript.py, lines 34-72)

    The snippet times are floats; the type and its operations are taken as
    given. *)

Section Snippets.

Variable F : Type.
Variable fadd : F -> F -> F.
Variables flt fgt fle fge : F -> F -> bool.

(** A fetched snippet: [text], [start], [duration]. *)
Record Snippet := mkSnippet {
  snip_text : str;
  snip_start : F;
  snip_duration : F
}.

(** Lines 37-62 for one snippet: is its text appended? *)
Definition included (start_time end_time : option F) (snippet : Snippet) : bool :=
  let snippet_start := snip_start snippet in
  let snippet_end := fadd snippet_start (snip_duration snippet) in
  if match start_time with Some t => flt snippet_end t | None => false end
  then false
  else if match end_time with Some t => fgt snippet_start t | None => false end
  then false
  else
    match start_time, end_time with
    | None, None => true
    | Some t0, Some t1 => fle snippet_start t1 && fge snippet_end t0
    | Some t0, None => fge snippet_end t0
    | None, Some t1 => fle snippet_start t1
    end.

(** The loop: [full_text += snippet.text + " "] for the included ones. *)
Definition gather (start_time end_time : option F) (snippets : list Snippet) : str :=
  fold_left
    (fun full_text snippet =>
       if included start_time end_time snippet
       then full_text ++ (snip_text snippet ++ [SPACE])
       else full_text)
    snippets [].

(** The success dictionary: [transcript], [wordCount], [language]. *)
Record Fetched := mkFetched {
  fetched_transcript : str;
  fetched_wordCount : nat;
  fetched_language : str
}.

(** Lines 65-72. *)
Definition fetched (start_time end_time : option F) (snippets : list Snippet)
    : Fetched :=
  let full_text := gather start_time end_time snippets in
  let full_text := strip (join (split full_text)) in
  {| fetched_transcript := full_text;
     fetched_wordCount := length (split full_text);
     fetched_language := lit "auto" |}.

End Snippets.

(** ** The duration text of [get_video_info] (lines 43-53) *)

(** [str(n)] for a natural number. *)
Fixpoint uint_chars (d : Decimal.uint) : str :=
  match d with
  | Decimal.Nil => []
  | Decimal.D0 d => 48%N :: uint_chars d
  | Decimal.D1 d => 49%N :: uint_chars d
  | Decimal.D2 d => 50%N :: uint_chars d
  | Decimal.D3 d => 51%N :: uint_chars d
  | Decimal.D4 d => 52%N :: uint_chars d
  | Decimal.D5 d => 53%N :: uint_chars d
  | Decimal.D6 d => 54%N :: uint_chars d
  | Decimal.D7 d => 55%N :: uint_chars d
  | Decimal.D8 d => 56%N :: uint_chars d
  | Decimal.D9 d => 57%N :: uint_chars d
  end.

Definition str_of_N (n : N) : str := uint_chars (N.to_uint n).

(** [f"{n:02d}"]: zeros in front up to two characters. *)
Definition two_digits (n : N) : str :=
  let s := str_of_N n in
  repeat 48%N (2 - length s) ++ s.

Definition COLON : char := 58%N.

(** [duration_seconds] is [None] or the number read from the page. *)
Definition format_duration (duration_seconds : option N) : str :=
  match duration_seconds with
  | None => lit "0:00"
  | Some d =>
      if (d =? 0)%N then lit "0:00"
      else
        let hours := (d / 3600)%N in
        let minutes := ((d mod 3600) / 60)%N in
        let seconds := (d mod 60)%N in
        if (0 <? hours)%N
        then str_of_N hours ++ COLON :: two_digits minutes ++ COLON :: two_digits seconds
        else str_of_N minutes ++ COLON :: two_digits seconds
  end.

(** The value of a two-character decimal text. *)
Definition two_digits_value (s : str) : N :=
  match s with
  | [a; b] => ((a - 48) * 10 + (b - 48))%N
  | _ => 0%N
  end.

(** ** The downloaded file of [download_audio]
    (download_youtube_audio.py, lines 54, 91-106) *)

(** A literal pattern for [re_sub]. *)
Definition literal_match (old new : str) : matcher := fun s =>
  if starts_with old s then Some (new, drop (length old) s) else None.

(** [s.replace(old, new)] for a non-empty [old]. *)
Definition str_replace (s old new : str) : str := re_sub (literal_match old new) s.

(** ['outtmpl': output_path.replace('.mp3', '.%(ext)s')] *)
Definition outtmpl (output_path : str) : str :=
  str_replace output_path (lit ".mp3") (lit ".%(ext)s").

Definition fallback_extensions : list str :=
  [lit ".mp3"; lit ".m4a"; lit ".webm"; lit ".opus"].

(** Lines 91-106: the file reported, [None] for "Downloaded file not
    found".  [path_exists] is [os.path.exists]. *)
Definition resolve_output (path_exists : str -> bool) (output_path : str)
    : option str :=
  let actual_output := str_replace output_path (lit ".mp3") (lit ".mp3") in
  let actual_output :=
    if negb (path_exists actual_output) then
      let base_name := str_replace output_path (lit ".mp3") [] in
      match List.find path_exists
              (map (fun ext => base_name ++ ext) fallback_extensions) with
      | Some candidate => candidate
      | None => actual_output
      end
    else actual_output in
  if negb (path_exists actual_output) then None else Some actual_output.

(** ** Whitespace and punctuation *)

Lemma is_space_SPACE : is_space SPACE = true.
Proof. reflexivity. Qed.

Lemma existsb_eqb_In (c : N) (l : list N) :
  existsb (N.eqb c) l = true <-> In c l.
Proof.
  rewrite existsb_exists. split.
  - intros [x [Hin Heq]]. apply N.eqb_eq in Heq. now subst.
  - intros Hin. exists c. split; [assumption | apply N.eqb_refl].
Qed.

Lemma punct_not_space c : is_punct c = true -> is_space c = false.
Proof.
  unfold is_punct. rewrite existsb_eqb_In. simpl.
  intros H. repeat (destruct H as [<- | H]; [reflexivity |]). destruct H.
Qed.

Lemma eqb_str_eq a b : eqb_str a b = true <-> a = b.
Proof.
  revert b. induction a as [| x a IH]; intros [| y b]; simpl; try easy.
  rewrite andb_true_iff, N.eqb_eq, IH. split.
  - intros [-> ->]. reflexivity.
  - intros [= -> ->]. auto.
Qed.

(** ** One iteration of the segment loop *)

Lemma process_segment_eq lower st segment :
  process_segment lower st segment =
  let segment_text := strip (text segment) in
  if QualityFilter_rejects segment then (QualitySkip, st)
  else if is_repetitive lower (last_segment_text st) segment_text
       then (NearDuplicate, skip_repetition st)
  else if is_exact_repetition (full_text st) segment_text
       then (ExactDuplicate, skip_repetition st)
  else (Accepted, append_segment st segment segment_text).
Proof.
  unfold process_segment, QualityFilter_rejects, minSegmentChars, minDistinctChars.
  cbv zeta.
  destruct (strip (text segment)) as [| c [| d t]]; reflexivity.
Qed.

Lemma run_from_app lower st pre post :
  run_from lower st (pre ++ post) = run_from lower (run_from lower st pre) post.
Proof. unfold run_from. apply fold_left_app. Qed.

Lemma run_from_cons lower st segment rest :
  run_from lower st (segment :: rest)
  = run_from lower (snd (process_segment lower st segment)) rest.
Proof. reflexivity. Qed.

(** ** C7: the quality filter *)

(** C7. The loop skips a segment at its quality tests exactly when the
    stripped text has fewer than 2 characters or fewer than 3 distinct
    characters, which is QualityFilter with its two thresholds; the test
    looks at the segment only (the same answer in every state) and a skipped
    segment leaves the state as it was.  A segment with
    text "aaaa" has 1 distinct character, is skipped in every state, and the
    result of a stream is the same with and without it. *)
Theorem C7_quality_filter :
  (forall lower st segment,
     fst (process_segment lower st segment) = QualitySkip
     <-> (length (strip (text segment)) < 2
          \/ distinct_chars (strip (text segment)) < 3)) /\
  (forall segment,
     QualityFilter_rejects segment = true
     <-> (length (strip (text segment)) < minSegmentChars
          \/ distinct_chars (strip (text segment)) < minDistinctChars)) /\
  (forall lower st segment,
     QualityFilter_rejects segment = true ->
     process_segment lower st segment = (QualitySkip, st)) /\
  (forall t0 t1, distinct_chars (lit "aaaa") = 1 /\
     QualityFilter_rejects (mkSegment (lit "aaaa") t0 t1) = true) /\
  (forall lower st t0 t1,
     process_segment lower st (mkSegment (lit "aaaa") t0 t1) = (QualitySkip, st)) /\
  (forall lower lang pre post t0 t1,
     collect lower lang (Yields (pre ++ mkSegment (lit "aaaa") t0 t1 :: post))
     = collect lower lang (Yields (pre ++ post))).
Proof.
  split; [| split; [| split; [| split; [| split]]]].
  - intros lower st segment. rewrite process_segment_eq. cbv zeta.
    unfold QualityFilter_rejects, minSegmentChars, minDistinctChars.
    destruct (Nat.ltb_spec (length (strip (text segment))) 2) as [E1 | E1];
      [split; [intros _; lia | reflexivity] |].
    destruct (Nat.ltb_spec (distinct_chars (strip (text segment))) 3) as [E2 | E2];
      [split; [intros _; lia | reflexivity] |].
    cbv [orb]. split; [| lia].
    destruct (is_repetitive _ _ _); [discriminate |].
    destruct (is_exact_repetition _ _); discriminate.
  - intros segment. unfold QualityFilter_rejects.
    rewrite orb_true_iff, !Nat.ltb_lt. reflexivity.
  - intros lower st segment E. rewrite process_segment_eq. cbv zeta.
    rewrite E. reflexivity.
  - intros t0 t1. split; vm_compute; reflexivity.
  - intros lower st t0 t1. rewrite process_segment_eq. reflexivity.
  - intros lower lang pre post t0 t1. unfold collect, run.
    rewrite !run_from_app, run_from_cons, process_segment_eq. reflexivity.
Qed.

(** ** The state along a stream *)

Ltac case_process lower st segment :=
  rewrite (process_segment_eq lower st segment); cbv zeta;
  destruct (QualityFilter_rejects segment) eqn:?;
  [| destruct (is_repetitive lower (last_segment_text st) (strip (text segment))) eqn:?;
     [| destruct (is_exact_repetition (full_text st) (strip (text segment))) eqn:?]].

Lemma append_spaced_code st segment segment_text :
  full_text (append_segment st segment segment_text)
  = append_spaced (full_text st) segment_text.
Proof.
  unfold append_segment, append_spaced, starts_with_punctuation.
  cbn [full_text].
  destruct (full_text st) as [| a f]; [reflexivity |].
  destruct segment_text as [| c t]; cbn [nonempty andb negb].
  - now rewrite app_nil_r.
  - destruct (existsb (N.eqb c) joining_punctuation); cbn [negb];
      [reflexivity |].
    now rewrite <- app_assoc.
Qed.

Lemma assemble_snoc texts t :
  assemble (texts ++ [t]) = append_spaced (assemble texts) t.
Proof. unfold assemble. now rewrite fold_left_app. Qed.

Lemma assembled_step lower st segment :
  assembled st -> assembled (snd (process_segment lower st segment)).
Proof.
  intros [Ht Hc]. case_process lower st segment; simpl; try (split; assumption).
  split.
  - rewrite (append_spaced_code st segment). cbn [append_segment segments_list].
    rewrite map_app. cbn [map text]. rewrite assemble_snoc, Ht. reflexivity.
  - cbn [append_segment segments_list segment_count].
    rewrite length_app, Hc. reflexivity.
Qed.

Lemma assembled_run_from lower segments :
  forall st, assembled st -> assembled (run_from lower st segments).
Proof.
  induction segments as [| segment rest IH]; intros st H; [exact H |].
  rewrite run_from_cons. apply IH, assembled_step, H.
Qed.

Lemma segments_grow_step lower st segment :
  segments_list st `prefix_of` segments_list (snd (process_segment lower st segment)).
Proof.
  case_process lower st segment; simpl; try reflexivity.
  now apply prefix_app_r.
Qed.

Lemma segments_grow lower segments :
  forall st, segments_list st `prefix_of` segments_list (run_from lower st segments).
Proof.
  induction segments as [| segment rest IH]; intros st; [reflexivity |].
  rewrite run_from_cons. etransitivity; [apply segments_grow_step | apply IH].
Qed.

(** C5. After every prefix of the stream, the running text is the
    concatenation-with-spacing of the texts of the segments accepted so far
    (a space before each appended text unless the running text is empty or
    the text starts with one of . ، , ! ? ؛), and the accepted segments after
    any longer prefix extend those after the shorter one, so their number
    never decreases. *)
Theorem C5_state_invariant lower pre post :
  let st := run lower pre in
  let st' := run lower (pre ++ post) in
  full_text st = assemble (map text (segments_list st)) /\
  segments_list st `prefix_of` segments_list st' /\
  length (segments_list st) <= length (segments_list st').
Proof.
  cbv zeta. unfold run. rewrite run_from_app.
  assert (Hp := segments_grow lower post (run_from lower initial pre)).
  split; [| split].
  - apply (assembled_run_from lower pre initial). split; reflexivity.
  - exact Hp.
  - apply prefix_length, Hp.
Qed.

Lemma outcome_reads lower st1 st2 segment :
  last_segment_text st1 = last_segment_text st2 ->
  full_text st1 = full_text st2 ->
  fst (process_segment lower st1 segment) = fst (process_segment lower st2 segment).
Proof.
  intros Hl Hf. rewrite !process_segment_eq. cbv zeta. rewrite Hl, Hf.
  destruct (QualityFilter_rejects segment); [reflexivity |].
  destruct (is_repetitive _ _ _); [reflexivity |].
  destruct (is_exact_repetition _ _); reflexivity.
Qed.

(** C6. When the repetition tests reject a segment (as near-duplicate or as
    exact duplicate), the repetition counter goes up by one and the running
    text, the accepted segments, their count and the last accepted text stay
    as they were; the next candidate therefore takes the same branch as it
    would have taken had the rejected segment not been there. *)
Theorem C6_reject_frame lower st segment :
  fst (process_segment lower st segment) = NearDuplicate \/
  fst (process_segment lower st segment) = ExactDuplicate ->
  let st' := snd (process_segment lower st segment) in
  repetition_count st' = repetition_count st + 1 /\
  segments_list st' = segments_list st /\
  full_text st' = full_text st /\
  last_segment_text st' = last_segment_text st /\
  segment_count st' = segment_count st /\
  forall next,
    fst (process_segment lower st' next) = fst (process_segment lower st next).
Proof.
  cbv zeta. case_process lower st segment; simpl;
    intros [H | H]; try discriminate H;
    (repeat split; try reflexivity);
    intros next; apply outcome_reads; reflexivity.
Qed.

Lemma C6_reject_frame_witness :
  let st := run ascii_lower [seg "hello world"] in
  let r := process_segment ascii_lower st (seg "hello world") in
  fst r = NearDuplicate /\
  repetition_count (snd r) = 1 /\
  last_segment_text (snd r) = lit "hello world" /\
  fst (process_segment ascii_lower (snd r) (seg "goodbye")) = Accepted.
Proof.
  cbv zeta.
  pose proof (C6_reject_frame ascii_lower (run ascii_lower [seg "hello world"])
                (seg "hello world")) as H.
  cbv zeta in H.
  destruct H as (Hr & _ & _ & Hl & _ & Hn).
  - left. vm_compute. reflexivity.
  - split; [vm_compute; reflexivity |].
    split; [rewrite Hr; vm_compute; reflexivity |].
    split; [rewrite Hl; vm_compute; reflexivity |].
    rewrite Hn. vm_compute. reflexivity.
Defined.

(** ** The result of a stream *)

Lemma trace_from_cons lower st segment rest :
  trace_from lower st (segment :: rest)
  = fst (process_segment lower st segment)
      :: trace_from lower (snd (process_segment lower st segment)) rest.
Proof. reflexivity. Qed.

Lemma nothing_accepted lower segments :
  forall st,
    existsb is_accepted (trace_from lower st segments) = false ->
    full_text (run_from lower st segments) = full_text st /\
    segments_list (run_from lower st segments) = segments_list st.
Proof.
  induction segments as [| segment rest IH]; intros st H; [split; reflexivity |].
  rewrite trace_from_cons in H. cbn [existsb] in H.
  apply orb_false_elim in H as [Hhead Hrest].
  rewrite run_from_cons. destruct (IH _ Hrest) as [-> ->].
  revert Hhead. case_process lower st segment; cbn [fst snd is_accepted];
    intros Hhead; try discriminate Hhead; split; reflexivity.
Qed.

Lemma finish_empty lang st :
  full_text st = [] -> segments_list st = [] ->
  finish lang st =
    {| transcript := []; wordCount := 0; characterCount := 0;
       language := lang; segments := [] |}.
Proof.
  intros Ht Hs. unfold finish. rewrite Ht, Hs. reflexivity.
Qed.

(** C8. A stream in which no segment is accepted (the empty stream among
    them) gives the successful result with the empty transcript, word count
    0 and no segments. *)
Theorem C8_empty_result lower lang segs :
  existsb is_accepted (trace lower segs) = false ->
  collect lower lang (Yields segs) =
    Success {| transcript := []; wordCount := 0; characterCount := 0;
               language := lang; segments := [] |}.
Proof.
  intros H. unfold collect. f_equal.
  destruct (nothing_accepted lower segs initial H) as [Ht Hs].
  apply finish_empty; assumption.
Qed.

Lemma C8_empty_result_witness :
  collect ascii_lower (lit "en") (Yields []) =
    Success {| transcript := []; wordCount := 0; characterCount := 0;
               language := lit "en"; segments := [] |} /\
  collect ascii_lower (lit "en") (Yields [seg "aaaa"; seg " x "]) =
    Success {| transcript := []; wordCount := 0; characterCount := 0;
               language := lit "en"; segments := [] |}.
Proof.
  split.
  - apply (C8_empty_result ascii_lower (lit "en") []). reflexivity.
  - apply (C8_empty_result ascii_lower (lit "en") [seg "aaaa"; seg " x "]).
    vm_compute. reflexivity.
Defined.

Lemma counters_run_from lower segments :
  forall st,
    repetition_count (run_from lower st segments)
    = repetition_count st + length (List.filter is_repetition (trace_from lower st segments)) /\
    segment_count (run_from lower st segments)
    = segment_count st + length (List.filter is_accepted (trace_from lower st segments)).
Proof.
  induction segments as [| segment rest IH]; intros st; [simpl; lia |].
  rewrite run_from_cons, trace_from_cons.
  destruct (IH (snd (process_segment lower st segment))) as [-> ->].
  case_process lower st segment;
    cbn [fst snd List.filter is_repetition is_accepted length skip_repetition
         append_segment repetition_count segment_count]; lia.
Qed.

(** C9, as stated, fails: the segment "aaaa" is rejected (by the quality
    tests) and no counter records it; the loop ends in the state it started
    in. *)
Lemma C9_counterexample :
  trace ascii_lower [seg "aaaa"] = [QualitySkip] /\
  run ascii_lower [seg "aaaa"] = initial /\
  ~ rejections_counted ascii_lower [seg "aaaa"].
Proof.
  split; [reflexivity |]. split; [reflexivity |].
  unfold rejections_counted. vm_compute. discriminate.
Qed.

(** C9, amended. Rejections by the repetition tests are counted: the
    repetition counter ends at the number of segments skipped as near or
    exact duplicates (and the accepted counter at the number accepted).
    Rejections by the quality tests are not counted anywhere: they leave the
    whole state as it was.  No rejection of either kind is an error: a
    stream that ends normally always gives a [success: True] result, which
    has no error field. *)
Theorem C9_rejections_silent lower lang segs :
  repetition_count (run lower segs)
    = length (List.filter is_repetition (trace lower segs)) /\
  segment_count (run lower segs)
    = length (List.filter is_accepted (trace lower segs)) /\
  (forall st segment,
     fst (process_segment lower st segment) = QualitySkip ->
     snd (process_segment lower st segment) = st) /\
  exists t, collect lower lang (Yields segs) = Success t.
Proof.
  destruct (counters_run_from lower segs initial) as [Hr Ha].
  split; [exact Hr |]. split; [exact Ha |]. split.
  - intros st segment. case_process lower st segment; cbn [fst snd];
      intros H; try discriminate H; reflexivity.
  - eexists. reflexivity.
Qed.

(** C10. On every successful run the transcript is the assembled text after
    the three rewrites and the phrase pass; [wordCount] is the number of
    whitespace-separated words of that transcript and [characterCount] its
    length.  They follow the transcript, not the accepted texts: one segment
    "the cat sat the cat sat on the mat" is accepted with its 9 words and 34
    characters, and the result counts the 6 words and 22 characters of "the
    cat sat on the mat". *)
Theorem C10_counts_follow_transcript :
  (forall lower lang segs,
     exists t,
       collect lower lang (Yields segs) = Success t /\
       transcript t = dedup_phrases (normalize (full_text (run lower segs))) /\
       wordCount t = length (split (transcript t)) /\
       characterCount t = length (transcript t)) /\
  (forall lower lang,
     let segs := [seg "the cat sat the cat sat on the mat"] in
     exists t,
       collect lower lang (Yields segs) = Success t /\
       map text (segments t) = [lit "the cat sat the cat sat on the mat"] /\
       length (split (full_text (run lower segs))) = 9 /\
       length (full_text (run lower segs)) = 34 /\
       transcript t = lit "the cat sat on the mat" /\
       wordCount t = 6 /\
       characterCount t = 22).
Proof.
  split.
  - intros lower lang segs. eexists. split; [reflexivity |].
    repeat split.
  - intros lower lang. cbv zeta. eexists. split; [reflexivity |].
    repeat split; vm_compute; reflexivity.
Qed.

(** ** The stream "hello world", "hello world", "goodbye" *)

Lemma is_repetitive_ext lower lower' a b :
  lower a = lower' a -> lower b = lower' b ->
  is_repetitive lower a b = is_repetitive lower' a b.
Proof.
  intros Ha Hb. unfold is_repetitive, word_set. rewrite Ha, Hb. reflexivity.
Qed.

Lemma process_segment_ext lower lower' st segment :
  lower (last_segment_text st) = lower' (last_segment_text st) ->
  lower (strip (text segment)) = lower' (strip (text segment)) ->
  process_segment lower st segment = process_segment lower' st segment.
Proof.
  intros Ha Hb. rewrite !process_segment_eq. cbv zeta.
  rewrite (is_repetitive_ext lower lower' _ _ Ha Hb). reflexivity.
Qed.

(** C4. With texts "hello world", "hello world", "goodbye" (any
    timestamps): the first and third segments are accepted and the second
    is skipped as a near-duplicate, its similarity to the last accepted text
    being 1.0 > 0.7; two segments are accepted and the transcript is "hello
    world goodbye".  [lower] is any lower-casing that leaves these two
    lower-case texts as they are. *)
Theorem C4_hello_world_goodbye lower lang a1 b1 a2 b2 a3 b3 :
  lower (lit "hello world") = lit "hello world" ->
  lower (lit "goodbye") = lit "goodbye" ->
  let s1 := mkSegment (lit "hello world") a1 b1 in
  let s2 := mkSegment (lit "hello world") a2 b2 in
  let s3 := mkSegment (lit "goodbye") a3 b3 in
  trace lower [s1; s2; s3] = [Accepted; NearDuplicate; Accepted] /\
  (similarity (word_set lower (text s1)) (word_set lower (text s2)) == 1)%Q /\
  float_gt (similarity (word_set lower (text s1)) (word_set lower (text s2)))
           float_0_7 = true /\
  segment_count (run lower [s1; s2; s3]) = 2 /\
  collect lower lang (Yields [s1; s2; s3]) =
    Success {| transcript := lit "hello world goodbye";
               wordCount := 3; characterCount := 19; language := lang;
               segments := [s1; s3] |}.
Proof.
  intros Hh Hg s1 s2 s3.
  assert (E1 : process_segment lower initial s1
               = process_segment ascii_lower initial s1) by reflexivity.
  set (st1 := snd (process_segment ascii_lower initial s1)).
  assert (E2 : process_segment lower st1 s2 = process_segment ascii_lower st1 s2).
  { apply process_segment_ext; vm_compute; vm_compute in Hh; exact Hh. }
  set (st2 := snd (process_segment ascii_lower st1 s2)).
  assert (E3 : process_segment lower st2 s3 = process_segment ascii_lower st2 s3).
  { apply process_segment_ext; vm_compute;
      [vm_compute in Hh; exact Hh | vm_compute in Hg; exact Hg]. }
  assert (Er : run lower [s1; s2; s3] = run ascii_lower [s1; s2; s3]).
  { unfold run, run_from. cbn [fold_left]. rewrite E1. fold st1.
    rewrite E2. fold st2. rewrite E3. reflexivity. }
  assert (Es : similarity (word_set lower (text s1)) (word_set lower (text s2))
               = similarity (word_set ascii_lower (text s1))
                            (word_set ascii_lower (text s2))).
  { unfold word_set. cbn [text s1 s2]. rewrite Hh. reflexivity. }
  split; [| split; [| split; [| split]]].
  - unfold trace. rewrite !trace_from_cons, E1. fold st1. rewrite E2. fold st2.
    rewrite E3. vm_compute. reflexivity.
  - rewrite Es. vm_compute. reflexivity.
  - rewrite Es. vm_compute. reflexivity.
  - rewrite Er. vm_compute. reflexivity.
  - unfold collect. rewrite Er. vm_compute. reflexivity.
Qed.

Lemma C4_hello_world_goodbye_witness :
  trace ascii_lower [seg "hello world"; seg "hello world"; seg "goodbye"]
    = [Accepted; NearDuplicate; Accepted] /\
  collect ascii_lower (lit "en")
    (Yields [seg "hello world"; seg "hello world"; seg "goodbye"]) =
    Success {| transcript := lit "hello world goodbye";
               wordCount := 3; characterCount := 19; language := lit "en";
               segments := [seg "hello world"; seg "goodbye"] |}.
Proof.
  destruct (C4_hello_world_goodbye ascii_lower (lit "en") 0 0 0 0 0 0
              eq_refl eq_refl) as (Ht & _ & _ & _ & Hc).
  split; [exact Ht | exact Hc].
Defined.

(** ** The similarity test against 0.7 *)

Section FloatFacts.

Local Open Scope Z_scope.

Lemma scale_spec p q :
  0 < p <= q ->
  52 <= scale p q /\
  2 ^ 52 * q <= p * 2 ^ scale p q < 2 ^ 53 * q.
Proof.
  intros [Hp Hpq].
  assert (Hq : 0 < q) by lia.
  destruct (Z.log2_spec p Hp) as [Ha1 Ha2].
  destruct (Z.log2_spec q Hq) as [Hb1 Hb2].
  assert (Hab : Z.log2 p <= Z.log2 q) by (apply Z.log2_le_mono; lia).
  assert (Ha0 : 0 <= Z.log2 p) by apply Z.log2_nonneg.
  unfold scale.
  set (a := Z.log2 p) in *. set (b := Z.log2 q) in *.
  set (k0 := 52 + b - a).
  assert (Hk0 : 2 ^ k0 * 2 ^ a = 2 ^ 52 * 2 ^ b).
  { rewrite <- !Z.pow_add_r by lia. f_equal. lia. }
  assert (Hs1 : 2 ^ Z.succ a = 2 * 2 ^ a) by (apply Z.pow_succ_r; lia).
  assert (Hs2 : 2 ^ Z.succ b = 2 * 2 ^ b) by (apply Z.pow_succ_r; lia).
  assert (Hs3 : 2 ^ (k0 + 1) = 2 * 2 ^ k0).
  { rewrite Z.pow_add_r by lia. lia. }
  assert (HX : 0 < 2 ^ k0) by (apply Z.pow_pos_nonneg; lia).
  assert (HA : 0 < 2 ^ a) by (apply Z.pow_pos_nonneg; lia).
  assert (HB : 0 < 2 ^ b) by (apply Z.pow_pos_nonneg; lia).
  (* bounds at k0 *)
  assert (Hlo : 2 ^ 51 * q < p * 2 ^ k0).
  { assert (2 ^ a * 2 ^ k0 <= p * 2 ^ k0) by nia.
    assert (2 ^ 51 * q < 2 ^ 51 * (2 * 2 ^ b)) by lia. lia. }
  assert (Hhi : p * 2 ^ k0 < 2 ^ 53 * q).
  { assert (p * 2 ^ k0 < (2 * 2 ^ a) * 2 ^ k0) by nia.
    assert (2 ^ 53 * 2 ^ b <= 2 ^ 53 * q) by lia. lia. }
  destruct (Z.ltb_spec (p * 2 ^ k0 / q) (2 ^ 52)) as [Hlt | Hge].
  - rewrite Hs3. split; [lia |].
    assert (p * 2 ^ k0 < 2 ^ 52 * q).
    { pose proof (Z.mul_succ_div_gt (p * 2 ^ k0) q Hq). nia. }
    lia.
  - split; [lia |]. split; [| lia].
    pose proof (Z.mul_div_le (p * 2 ^ k0) q Hq). nia.
Qed.

Lemma round_half_even_spec n d :
  0 < d ->
  let m := n / d in
  let r := n mod d in
  n = d * m + r /\ 0 <= r < d /\
  ((round_half_even n d = m /\ (2 * r < d \/ (2 * r = d /\ Z.even m = true))) \/
   (round_half_even n d = m + 1 /\ (d < 2 * r \/ (2 * r = d /\ Z.even m = false)))).
Proof.
  intros Hd m r. split; [apply Z.div_mod; lia |].
  split; [apply Z.mod_pos_bound; lia |].
  unfold round_half_even. fold m r.
  destruct (Z.ltb_spec (2 * r) d); [left; split; [reflexivity | lia] |].
  destruct (Z.ltb_spec d (2 * r)); [right; split; [reflexivity | lia] |].
  destruct (Z.even m) eqn:E; [left | right];
    (split; [reflexivity | right; split; [lia | reflexivity]]).
Qed.

Lemma float_gt_0_7 p q :
  0 <= p <= q -> 0 < q < 2 ^ 53 ->
  float_gt (truediv p q) float_0_7 = true <-> 7 * q < 10 * p.
Proof.
  intros [Hp Hpq] [Hq Hbig].
  change float_0_7 with (6305039478318694 # 9007199254740992)%Q.
  unfold float_gt, truediv. rewrite Bool.negb_true_iff, <- Bool.not_true_iff_false, Qle_bool_iff.
  destruct (Z.eqb_spec p 0) as [-> | Hp0].
  - unfold Qle. cbn [Qnum Qden]. lia.
  - destruct (scale_spec p q ltac:(lia)) as (Hk & Hlo & Hhi).
    set (k := scale p q) in *.
    assert (HX : 0 < 2 ^ k) by (apply Z.pow_pos_nonneg; lia).
    destruct (round_half_even_spec (p * 2 ^ k) q Hq) as (Hdm & Hr & Hround).
    set (m := p * 2 ^ k / q) in *. set (r := (p * 2 ^ k) mod q) in *.
    set (m' := round_half_even (p * 2 ^ k) q) in *.
    unfold Qle. cbn [Qnum Qden]. rewrite Z2Pos.id by exact HX.
    assert (Hm : 2 ^ 52 <= m < 2 ^ 53) by nia.
    destruct (Z.eq_dec k 52) as [E52 | N52]; [| destruct (Z.eq_dec k 53) as [E53 | N53]].
    + rewrite E52 in *. assert (p = q) by lia. subst q.
      assert (r = 0 /\ m = 2 ^ 52) as [Hr0 Hm0] by nia.
      assert (m' = m) by (destruct Hround as [[? ?] | [? ?]]; lia).
      lia.
    + rewrite E53 in *.
      assert (Heven : Z.even 6305039478318694 = true) by reflexivity.
      split.
      * intros Hgt. assert (6305039478318694 < m') by lia.
        destruct Hround as [[Hm' Hc] | [Hm' Hc]]; [nia |].
        destruct (Z.eq_dec m 6305039478318694) as [Em | Nm]; [| nia].
        rewrite Em in *. destruct Hc as [Hc | [_ Hc]]; [nia | congruence].
      * intros Hgt Hle. assert (m' <= 6305039478318694) by lia.
        destruct Hround as [[Hm' Hc] | [Hm' Hc]].
        -- destruct (Z.eq_dec m 6305039478318694) as [Em | Nm]; [| nia].
           rewrite Em in *. nia.
        -- nia.
    + assert (Hk54 : 2 ^ k = 2 ^ 54 * 2 ^ (k - 54)).
      { rewrite <- Z.pow_add_r by lia. f_equal. lia. }
      assert (HY : 0 < 2 ^ (k - 54)) by (apply Z.pow_pos_nonneg; lia).
      assert (m' <= 2 ^ 53) by (destruct Hround as [[? ?] | [? ?]]; lia).
      split; [intros Hgt; exfalso; apply Hgt; nia |].
      intros Hgt. exfalso. nia.
Qed.

End FloatFacts.

(** ** C1: the two repetition tests *)

Lemma starts_with_spec needle :
  forall hay, starts_with needle hay = true <-> exists post, hay = needle ++ post.
Proof.
  induction needle as [| x n IH]; intros hay; simpl.
  - split; [intros _; now exists hay | reflexivity].
  - destruct hay as [| y h].
    + split; [discriminate | intros [post H]; discriminate H].
    + rewrite andb_true_iff, N.eqb_eq, IH. split.
      * intros [-> [post ->]]. now exists post.
      * intros [post [= -> ->]]. split; [reflexivity | now exists post].
Qed.

Lemma contains_spec needle :
  forall hay,
    contains hay needle = true <-> exists pre post, hay = pre ++ needle ++ post.
Proof.
  induction hay as [| y h IH].
  - simpl. rewrite orb_false_r, starts_with_spec. split.
    + intros [post H]. now exists [], post.
    + intros (pre & post & H). destruct pre as [| a pre]; [now exists post |].
      discriminate H.
  - cbn [contains]. rewrite orb_true_iff, starts_with_spec, IH. split.
    + intros [[post H] | (pre & post & H)].
      * now exists [], post.
      * exists (y :: pre), post. now rewrite H.
    + intros (pre & post & H). destruct pre as [| a pre].
      * left. now exists post.
      * right. injection H as _ H. now exists pre, post.
Qed.

Lemma slice_from_tail full_text segment_text :
  segment_text <> [] ->
  slice_from full_text (- Z.of_nat (length segment_text) * 3)
  = tailWindow full_text segment_text.
Proof.
  intros Hne. unfold slice_from, tailWindow, last_chars, exactMatchWindowMultiplier.
  assert (0 < length segment_text) by (destruct segment_text; [easy | simpl; lia]).
  destruct (Z.ltb_spec (- Z.of_nat (length segment_text) * 3) 0); [| lia].
  f_equal. lia.
Qed.

Lemma jaccard_threshold (a b : gset str) :
  size a <> 0 ->
  (similarityThreshold < jaccard a b)%Q
  <-> (7 * Z.of_nat (size (a ∪ b)) < 10 * Z.of_nat (size (a ∩ b)))%Z.
Proof.
  intros Ha.
  assert (size a <= size (a ∪ b)) by apply subseteq_size, union_subseteq_l.
  unfold Qlt, similarityThreshold, jaccard. cbn [Qnum Qden].
  rewrite <- (positive_nat_Z (Pos.of_nat _)), Nat2Pos.id by lia. lia.
Qed.

Lemma is_repetitive_spec lower last_text candidate :
  let last_words := word_set lower last_text in
  let current_words := word_set lower candidate in
  last_text <> [] -> last_words <> ∅ -> current_words <> ∅ ->
  (Z.of_nat (size (last_words ∪ current_words)) < 2 ^ 53)%Z ->
  is_repetitive lower last_text candidate = true
  <-> (similarityThreshold < jaccard last_words current_words)%Q.
Proof.
  intros A B Hl HA HB Hbig.
  assert (HA' : size A <> 0) by (rewrite size_non_empty_iff; now intros ->%leibniz_equiv).
  assert (HB' : size B <> 0) by (rewrite size_non_empty_iff; now intros ->%leibniz_equiv).
  unfold is_repetitive. fold A B.
  destruct last_text; [easy |]. cbn [nonempty].
  destruct (Nat.eqb_spec (size A) 0); [easy |].
  destruct (Nat.eqb_spec (size B) 0); [easy |]. cbn [negb andb].
  assert (size A <= size (A ∪ B)) by apply subseteq_size, union_subseteq_l.
  assert (size (A ∩ B) <= size A) by apply subseteq_size, intersection_subseteq_l.
  unfold similarity. rewrite float_gt_0_7 by lia.
  now rewrite jaccard_threshold.
Qed.

Lemma is_repetitive_guard lower last_text candidate :
  last_text = [] \/ word_set lower last_text = ∅ \/ word_set lower candidate = ∅ ->
  is_repetitive lower last_text candidate = false.
Proof.
  unfold is_repetitive. intros [-> | [H | H]]; [reflexivity | |];
    destruct (nonempty last_text); try reflexivity; rewrite H, size_empty;
    [reflexivity |].
  destruct (negb (size (word_set lower last_text) =? 0)); reflexivity.
Qed.

Lemma quality_pass_nonempty segment :
  QualityFilter_rejects segment = false -> strip (text segment) <> [].
Proof.
  unfold QualityFilter_rejects. intros H E. rewrite E in H. discriminate H.
Qed.

(** C1. For a segment that passed the quality tests: when the last accepted
    text is non-empty and both lower-cased token sets are non-empty, the
    segment is skipped as a near-duplicate exactly when the Jaccard
    similarity of the two sets exceeds 0.7 (the quotient is a double: the
    statement covers token sets of fewer than 2^53 words, where rounding
    cannot change the comparison); without those conditions it is never a
    near-duplicate.  If it is not skipped as a near-duplicate, it is skipped
    as an exact duplicate exactly when its text occurs inside the last
    3 * len(text) characters of the running text; otherwise it is accepted.
    The near-duplicate test comes first, and a skipped segment raises the
    repetition counter by exactly one. *)
Theorem C1_repetition_detector lower st segment :
  QualityFilter_rejects segment = false ->
  let candidateText := strip (text segment) in
  let lastAcceptedText := last_segment_text st in
  let runningText := full_text st in
  let lastTokens := word_set lower lastAcceptedText in
  let candTokens := word_set lower candidateText in
  let outcome := fst (process_segment lower st segment) in
  (lastAcceptedText <> [] -> lastTokens <> ∅ -> candTokens <> ∅ ->
   (Z.of_nat (size (lastTokens ∪ candTokens)) < 2 ^ 53)%Z ->
   (outcome = NearDuplicate
    <-> (similarityThreshold < jaccard lastTokens candTokens)%Q)) /\
  (lastAcceptedText = [] \/ lastTokens = ∅ \/ candTokens = ∅ ->
   outcome <> NearDuplicate) /\
  (outcome <> NearDuplicate ->
   (outcome = ExactDuplicate
    <-> exists pre post,
          tailWindow runningText candidateText = pre ++ candidateText ++ post)) /\
  (outcome <> NearDuplicate -> outcome <> ExactDuplicate -> outcome = Accepted) /\
  (outcome = NearDuplicate \/ outcome = ExactDuplicate ->
   repetition_count (snd (process_segment lower st segment))
   = repetition_count st + 1).
Proof.
  intros Hq. cbv zeta.
  pose proof (quality_pass_nonempty segment Hq) as Hne.
  pose proof (contains_spec (strip (text segment))
                (tailWindow (full_text st) (strip (text segment)))) as Hsub.
  rewrite <- (slice_from_tail _ _ Hne) in Hsub.
  fold (is_exact_repetition (full_text st) (strip (text segment))) in Hsub.
  rewrite (slice_from_tail _ _ Hne) in Hsub.
  rewrite process_segment_eq. cbv zeta. rewrite Hq.
  split; [| split; [| split; [| split]]].
  - intros Hl HA HB Hbig.
    rewrite <- (is_repetitive_spec lower _ _ Hl HA HB Hbig).
    destruct (is_repetitive _ _ _); [easy |].
    destruct (is_exact_repetition _ _); easy.
  - intros Hg. rewrite (is_repetitive_guard lower _ _ Hg).
    destruct (is_exact_repetition _ _); easy.
  - destruct (is_repetitive _ _ _); [easy |]. intros _.
    rewrite <- Hsub. destruct (is_exact_repetition _ _); easy.
  - destruct (is_repetitive _ _ _); [easy |].
    destruct (is_exact_repetition _ _); easy.
  - destruct (is_repetitive _ _ _); [reflexivity |].
    destruct (is_exact_repetition _ _); [reflexivity |].
    intros [H | H]; discriminate H.
Qed.

Lemma C1_repetition_detector_witness :
  QualityFilter_rejects (seg "World  hello") = false /\
  (fst (process_segment ascii_lower (run ascii_lower [seg "hello there world"])
          (seg "World  hello")) = NearDuplicate
   <-> (similarityThreshold
        < jaccard (word_set ascii_lower (lit "hello there world"))
                  (word_set ascii_lower (lit "World  hello")))%Q).
Proof.
  split; [reflexivity |].
  refine (proj1 (C1_repetition_detector ascii_lower
                   (run ascii_lower [seg "hello there world"])
                   (seg "World  hello") eq_refl) _ _ _ _).
  - discriminate.
  - intros E. apply (f_equal size) in E. vm_compute in E. discriminate E.
  - intros E. apply (f_equal size) in E. vm_compute in E. discriminate E.
  - vm_compute. reflexivity.
Defined.

(** ** C2: the phrase pass *)

Lemma dedup_loop_step words i cleaned_words :
  dedup_loop words i cleaned_words =
  if lt_dec i (length words) then
    match find_repetition words i with
    | Some phrase_len =>
        dedup_loop words (i + phrase_len * 2)
          (cleaned_words ++ slice words i (i + phrase_len))
    | None => dedup_loop words (i + 1) (cleaned_words ++ [nth i words []])
    end
  else cleaned_words.
Proof.
  funelim (dedup_loop words i cleaned_words).
  - rewrite Heq. reflexivity.
  - rewrite Heq, e. reflexivity.
  - rewrite Heq, e. reflexivity.
Qed.

Lemma split_from_spaceless s :
  forall cur, spaceless cur -> Forall spaceless (split_from cur s).
Proof.
  induction s as [| c rest IH]; intros cur Hcur; simpl.
  - destruct cur; [constructor | constructor; [assumption | constructor]].
  - destruct (is_space c) eqn:Ec.
    + destruct cur; [apply IH; constructor |].
      constructor; [assumption | apply IH; constructor].
    + apply IH. apply Forall_app. split; [assumption |].
      constructor; [assumption | constructor].
Qed.

Lemma split_spaceless s : Forall spaceless (split s).
Proof. apply split_from_spaceless. constructor. Qed.

Lemma spaceless_no_SPACE w : spaceless w -> ~ In SPACE w.
Proof.
  intros Hw Hin. unfold spaceless in Hw. rewrite Forall_forall in Hw.
  apply list_elem_of_In in Hin. specialize (Hw _ Hin). discriminate Hw.
Qed.

Lemma cut_at_separator (w1 w2 r1 r2 : str) :
  spaceless w1 -> spaceless w2 ->
  w1 ++ SPACE :: r1 = w2 ++ SPACE :: r2 -> w1 = w2 /\ r1 = r2.
Proof.
  revert w2. induction w1 as [| x w1 IH]; intros [| y w2] H1 H2 E; simpl in E.
  - injection E as ->. split; reflexivity.
  - injection E as <- _. inversion H2 as [| ? ? Hy _]. discriminate Hy.
  - injection E as -> _. inversion H1 as [| ? ? Hx _]. discriminate Hx.
  - injection E as -> E. inversion H1; inversion H2; subst.
    destruct (IH w2) as [-> ->]; auto.
Qed.

Lemma join_cons w ws :
  join (w :: ws) = match ws with [] => w | _ => w ++ SPACE :: join ws end.
Proof. destruct ws; reflexivity. Qed.

(** Joined phrases of the same number of space-free words are equal only
    when the phrases are. *)
Lemma join_inj l1 :
  forall l2,
    length l1 = length l2 -> Forall spaceless l1 -> Forall spaceless l2 ->
    join l1 = join l2 -> l1 = l2.
Proof.
  induction l1 as [| w1 r1 IH]; intros [| w2 r2] Hlen H1 H2 E;
    try discriminate Hlen; [reflexivity |].
  inversion H1 as [| ? ? Hw1 Hr1]; inversion H2 as [| ? ? Hw2 Hr2]; subst.
  rewrite !join_cons in E.
  destruct r1 as [| a r1], r2 as [| b r2]; try discriminate Hlen.
  - now subst.
  - apply cut_at_separator in E as [-> E]; [| assumption | assumption].
    f_equal. apply IH; auto.
Qed.

Lemma repeats_at_slices words i L :
  Forall spaceless words -> i < length words ->
  repeats_at words i L = slices_repeat (drop i words) L.
Proof.
  intros Hw Hi. unfold repeats_at, slices_repeat, slice.
  rewrite length_drop.
  destruct (Nat.leb_spec (i + L * 2) (length words)) as [Hle | Hgt];
    destruct (Nat.leb_spec (2 * L) (length words - i)); try lia.
  cbn [andb].
  replace (i + L - i) with L by lia.
  replace (i + L * 2 - (i + L)) with L by lia.
  rewrite drop_drop.
  set (a := take L (drop i words)). set (b := take L (drop (i + L) words)).
  destruct (eqb_str (join a) (join b)) eqn:E.
  - symmetry. apply bool_decide_eq_true. apply eqb_str_eq in E.
    apply join_inj; [| | | exact E].
    + unfold a, b. rewrite !length_take, !length_drop. lia.
    + unfold a. apply Forall_take, Forall_drop, Hw.
    + unfold b. apply Forall_take, Forall_drop, Hw.
  - symmetry. apply bool_decide_eq_false. intros Hab.
    rewrite Hab in E. assert (eqb_str (join b) (join b) = true) by now apply eqb_str_eq.
    congruence.
Qed.

Lemma find_repetition_slices words i :
  Forall spaceless words -> i < length words ->
  find_repetition words i = List.find (slices_repeat (drop i words)) [5; 4; 3; 2].
Proof.
  intros Hw Hi. unfold find_repetition. cbn [List.find].
  now rewrite !(repeats_at_slices words i) by assumption.
Qed.

Lemma dedup_loop_refines words :
  Forall spaceless words ->
  forall fuel i cleaned_words,
    length words - i <= fuel ->
    dedup_loop words i cleaned_words
    = cleaned_words ++ PhraseDeduplicator_from fuel (drop i words).
Proof.
  intros Hw. induction fuel as [| fuel IH]; intros i cleaned Hfuel;
    rewrite dedup_loop_step.
  - destruct (lt_dec i (length words)); [lia |]. simpl. now rewrite app_nil_r.
  - destruct (lt_dec i (length words)) as [Hi | Hi].
    + rewrite (find_repetition_slices words i Hw Hi).
      destruct (drop i words) as [| w rest'] eqn:Ed.
      { apply (f_equal length) in Ed. rewrite length_drop in Ed. simpl in Ed. lia. }
      cbn [PhraseDeduplicator_from].
      destruct (List.find (slices_repeat (w :: rest')) [5; 4; 3; 2]) as [L |] eqn:Ef.
      * assert (2 <= L <= 5).
        { apply List.find_some in Ef as [Hin _]. simpl in Hin. lia. }
        rewrite IH by lia. rewrite <- app_assoc. f_equal.
        unfold slice. replace (i + L - i) with L by lia. rewrite Ed.
        f_equal. f_equal. rewrite <- Ed, drop_drop. f_equal. lia.
      * rewrite IH by lia. rewrite <- app_assoc. f_equal. cbn [app]. f_equal.
        -- rewrite <- (take_drop i words) at 1.
           rewrite Ed, app_nth2; rewrite length_take; [| lia].
           replace (i - i `min` length words) with 0 by lia. reflexivity.
        -- f_equal. rewrite <- drop_drop, Ed. reflexivity.
    + rewrite drop_ge by lia. now rewrite app_nil_r.
Qed.

Lemma PhraseDeduplicator_from_enough f1 :
  forall f2 rest,
    length rest <= f1 -> length rest <= f2 ->
    PhraseDeduplicator_from f1 rest = PhraseDeduplicator_from f2 rest.
Proof.
  induction f1 as [| f1 IH]; intros f2 rest H1 H2.
  - destruct rest; [| simpl in H1; lia]. destruct f2; reflexivity.
  - destruct rest as [| w rest']; [destruct f2; reflexivity |].
    destruct f2 as [| f2]; [simpl in H2; lia |].
    cbn [PhraseDeduplicator_from].
    destruct (List.find (slices_repeat (w :: rest')) [5; 4; 3; 2]) as [L |] eqn:Ef.
    + assert (2 <= L <= 5).
      { apply List.find_some in Ef as [Hin _]. simpl in Hin. lia. }
      f_equal. apply IH; rewrite length_drop; simpl in *; lia.
    + f_equal. apply IH; simpl in *; lia.
Qed.

Lemma PhraseDeduplicator_cons w rest :
  PhraseDeduplicator (w :: rest) =
  match List.find (slices_repeat (w :: rest)) [5; 4; 3; 2] with
  | Some L => take L (w :: rest) ++ PhraseDeduplicator (drop (2 * L) (w :: rest))
  | None => w :: PhraseDeduplicator rest
  end.
Proof.
  unfold PhraseDeduplicator. cbn [length PhraseDeduplicator_from].
  destruct (List.find (slices_repeat (w :: rest)) [5; 4; 3; 2]) as [L |] eqn:Ef.
  - assert (2 <= L <= 5).
    { apply List.find_some in Ef as [Hin _]. simpl in Hin. lia. }
    f_equal. apply PhraseDeduplicator_from_enough;
      rewrite ?length_drop; simpl; lia.
  - reflexivity.
Qed.

(** C2. On the words of a text ([split], so no word contains whitespace),
    the loop gives what PhraseDeduplicator describes: one pass from the
    left; at each position the lengths 5, 4, 3, 2 are tried in that order,
    a length counting when at least twice as many words remain and the two
    adjacent slices are equal word for word; the first such length emits the
    slice once and moves on by twice the length, and when there is none the
    single word is emitted and the position moves on by one.  On "the cat
    sat the cat sat on the mat" the result is "the cat sat on the mat". *)
Theorem C2_phrase_deduplicator :
  (forall full_text,
     dedup_loop (split full_text) 0 [] = PhraseDeduplicator (split full_text)) /\
  (forall full_text,
     dedup_phrases full_text = join (PhraseDeduplicator (split full_text))) /\
  PhraseDeduplicator [] = [] /\
  (forall w rest,
     PhraseDeduplicator (w :: rest) =
     match List.find (slices_repeat (w :: rest)) [5; 4; 3; 2] with
     | Some L => take L (w :: rest) ++ PhraseDeduplicator (drop (2 * L) (w :: rest))
     | None => w :: PhraseDeduplicator rest
     end) /\
  (forall rest L,
     slices_repeat rest L = true
     <-> 2 * L <= length rest /\ take L rest = take L (drop L rest)) /\
  dedup_phrases (lit "the cat sat the cat sat on the mat")
  = lit "the cat sat on the mat".
Proof.
  assert (Hloop : forall full_text,
             dedup_loop (split full_text) 0 [] = PhraseDeduplicator (split full_text)).
  { intros full_text.
    rewrite (dedup_loop_refines _ (split_spaceless full_text)
               (length (split full_text)) 0 []) by lia.
    reflexivity. }
  split; [exact Hloop |].
  split; [intros full_text; unfold dedup_phrases; now rewrite Hloop |].
  split; [reflexivity |].
  split; [exact PhraseDeduplicator_cons |].
  split.
  - intros rest L. unfold slices_repeat.
    rewrite andb_true_iff, Nat.leb_le, bool_decide_eq_true. reflexivity.
  - vm_compute. reflexivity.
Qed.

(** ** C3: the three rewrites *)

(** *** [re.sub] without fuel *)

Lemma sub_loop_enough m f1 :
  progressive m ->
  forall f2 s, length s <= f1 -> length s <= f2 -> sub_loop f1 m s = sub_loop f2 m s.
Proof.
  intros Hm. induction f1 as [| f1 IH]; intros f2 s H1 H2.
  - destruct s; [| simpl in H1; lia]. destruct f2; reflexivity.
  - destruct s as [| c rest]; [destruct f2; reflexivity |].
    destruct f2 as [| f2]; [simpl in H2; lia |].
    cbn [sub_loop].
    destruct (m (c :: rest)) as [[repl after] |] eqn:E.
    + apply Hm in E. f_equal. apply IH; simpl in *; lia.
    + f_equal. apply IH; simpl in *; lia.
Qed.

Lemma re_sub_nil m : re_sub m [] = [].
Proof. reflexivity. Qed.

Lemma re_sub_cons m c rest :
  progressive m ->
  re_sub m (c :: rest) =
  match m (c :: rest) with
  | Some (repl, after) => repl ++ re_sub m after
  | None => c :: re_sub m rest
  end.
Proof.
  intros Hm. unfold re_sub. cbn [length sub_loop].
  destruct (m (c :: rest)) as [[repl after] |] eqn:E; [| reflexivity].
  pose proof (Hm _ _ _ E) as Hlt. f_equal.
  apply sub_loop_enough; [exact Hm | simpl in Hlt; lia | lia].
Qed.

Lemma lstrip_length s : length (lstrip s) <= length s.
Proof.
  induction s as [| c rest IH]; [reflexivity |]. simpl.
  destruct (is_space c); simpl; lia.
Qed.

Lemma spaces_to_one_progressive : progressive spaces_to_one.
Proof.
  intros [| c rest] repl after; [discriminate |]. simpl.
  destruct (is_space c); [| discriminate]. intros [= <- <-].
  pose proof (lstrip_length rest). simpl. lia.
Qed.

Lemma space_before_punct_progressive : progressive space_before_punct.
Proof.
  intros [| c rest] repl after; [discriminate |]. simpl.
  destruct (is_space c); [| discriminate].
  pose proof (lstrip_length rest) as Hl.
  destruct (lstrip rest) as [| p t]; [discriminate |].
  destruct (is_punct p); [| discriminate]. intros [= <- <-].
  simpl in *. lia.
Qed.

Lemma punct_then_char_progressive : progressive punct_then_char.
Proof.
  intros [| p [| c t]] repl after; try discriminate. simpl.
  destruct (is_punct p && negb (is_space c)); [| discriminate].
  intros [= <- <-]. simpl. lia.
Qed.

(** The three rewrites, one scan step at a time. *)
Lemma collapse_cons c rest :
  re_sub spaces_to_one (c :: rest) =
  if is_space c then SPACE :: re_sub spaces_to_one (lstrip rest)
  else c :: re_sub spaces_to_one rest.
Proof.
  rewrite re_sub_cons by apply spaces_to_one_progressive. simpl.
  destruct (is_space c); reflexivity.
Qed.

Lemma unspace_cons c rest :
  re_sub space_before_punct (c :: rest) =
  if is_space c then
    match lstrip rest with
    | p :: after =>
        if is_punct p then p :: re_sub space_before_punct after
        else c :: re_sub space_before_punct rest
    | [] => c :: re_sub space_before_punct rest
    end
  else c :: re_sub space_before_punct rest.
Proof.
  rewrite re_sub_cons by apply space_before_punct_progressive. simpl.
  destruct (is_space c); [| reflexivity].
  destruct (lstrip rest) as [| p after]; [reflexivity |].
  destruct (is_punct p); reflexivity.
Qed.

Lemma respace_cons p rest :
  re_sub punct_then_char (p :: rest) =
  match rest with
  | c :: after =>
      if is_punct p && negb (is_space c)
      then p :: SPACE :: c :: re_sub punct_then_char after
      else p :: re_sub punct_then_char rest
  | [] => [p]
  end.
Proof.
  rewrite re_sub_cons by apply punct_then_char_progressive.
  destruct rest as [| c after]; [reflexivity |]. simpl.
  destruct (is_punct p && negb (is_space c)); reflexivity.
Qed.

(** *** Shapes of text between the rewrites *)

Lemma str_length_ind (P : str -> Prop) :
  (forall s, (forall t, length t < length s -> P t) -> P s) -> forall s, P s.
Proof.
  intros H s. remember (length s) as n eqn:E. revert s E.
  induction n as [n IH] using lt_wf_ind. intros s ->.
  apply H. intros t Ht. apply (IH (length t) Ht t eq_refl).
Qed.

Lemma space_not_punct c : is_space c = true -> is_punct c = false.
Proof.
  intros Hs. destruct (is_punct c) eqn:E; [| reflexivity].
  apply punct_not_space in E. congruence.
Qed.

Lemma lstrip_headed s : headed (lstrip s).
Proof.
  induction s as [| c rest IH]; [exact I |]. simpl.
  destruct (is_space c) eqn:E; [exact IH | exact E].
Qed.

Lemma lstrip_id s : headed s -> lstrip s = s.
Proof. destruct s as [| c rest]; [reflexivity |]. simpl. now intros ->. Qed.

Lemma rstrip_head s k ks : rstrip s = k :: ks -> exists t, s = k :: t.
Proof.
  destruct s as [| c rest]; [discriminate |]. simpl.
  destruct (rstrip rest).
  - destruct (is_space c); [discriminate |]. intros [= <- _]. now exists rest.
  - intros [= <- _]. now exists rest.
Qed.

Section Rewrites.

Local Abbreviation R1 := (re_sub spaces_to_one).
Local Abbreviation R2 := (re_sub space_before_punct).
Local Abbreviation R3 := (re_sub punct_then_char).

Lemma collapse_keep c t : is_space c = false -> R1 (c :: t) = c :: R1 t.
Proof. intros H. now rewrite collapse_cons, H. Qed.

Lemma unspace_keep c t : is_space c = false -> R2 (c :: t) = c :: R2 t.
Proof. intros H. now rewrite unspace_cons, H. Qed.

Lemma respace_keep c t : is_punct c = false -> R3 (c :: t) = c :: R3 t.
Proof.
  intros H. rewrite respace_cons, H. destruct t; reflexivity.
Qed.

Lemma respace_head c t : exists t', R3 (c :: t) = c :: t'.
Proof.
  rewrite respace_cons. destruct t as [| d t]; [now exists [] |].
  destruct (is_punct c && negb (is_space d)); eauto.
Qed.

Lemma collapse_headed s : headed s -> headed (R1 s).
Proof.
  destruct s as [| c t]; [easy |]. simpl. intros H.
  now rewrite collapse_keep.
Qed.

Lemma unspace_headed s : headed s -> headed (R2 s).
Proof.
  destruct s as [| c t]; [easy |]. simpl. intros H.
  now rewrite unspace_keep.
Qed.

Lemma respace_headed s : headed s -> headed (R3 s).
Proof.
  destruct s as [| c t]; [easy |]. simpl. intros H.
  destruct (respace_head c t) as [t' ->]. exact H.
Qed.

Lemma respace_nonempty s : s <> [] -> R3 s <> [].
Proof.
  destruct s as [| c t]; [easy |]. intros _.
  destruct (respace_head c t) as [t' ->]. discriminate.
Qed.

(** After the first rewrite and [strip]. *)
Lemma collapse_collapsed : forall s, collapsed (R1 s).
Proof.
  apply str_length_ind. intros [| c rest] IH; [exact I |].
  rewrite collapse_cons. destruct (is_space c) eqn:E.
  - split.
    + intros _. split; [reflexivity |]. apply collapse_headed, lstrip_headed.
    + apply IH. pose proof (lstrip_length rest). simpl. lia.
  - split; [congruence |]. apply IH. simpl. lia.
Qed.

Lemma lstrip_collapsed s : collapsed s -> collapsed (lstrip s).
Proof.
  induction s as [| c rest IH]; [easy |]. intros H. cbn [lstrip].
  destruct (is_space c); [apply IH, H | exact H].
Qed.

Lemma rstrip_spaced s : collapsed s -> spaced (rstrip s).
Proof.
  induction s as [| c rest IH]; [easy |]. simpl. intros [Hc Hrest].
  specialize (IH Hrest).
  destruct (rstrip rest) as [| k ks] eqn:Er.
  - destruct (is_space c) eqn:E; [exact I |]. split; [congruence | exact I].
  - split; [| exact IH]. intros Hs. destruct (Hc Hs) as [-> Hh].
    split; [reflexivity |]. split; [discriminate |].
    apply rstrip_head in Er as [t ->]. exact Hh.
Qed.

Lemma rstrip_headed s : headed s -> headed (rstrip s).
Proof.
  destruct s as [| c rest]; [easy |]. simpl. intros H.
  destruct (rstrip rest); [rewrite H |]; exact H.
Qed.

Lemma strip_collapse_tidy s :
  spaced (strip (R1 s)) /\ headed (strip (R1 s)).
Proof.
  unfold strip. split.
  - apply rstrip_spaced, lstrip_collapsed, collapse_collapsed.
  - apply rstrip_headed, lstrip_headed.
Qed.

(** The first rewrite and [strip] change nothing in such a text. *)
Lemma collapse_spaced s : spaced s -> R1 s = s.
Proof.
  induction s as [| c rest IH]; [reflexivity |]. intros [Hc Hrest].
  rewrite collapse_cons. destruct (is_space c) eqn:E.
  - destruct (Hc eq_refl) as (-> & _ & Hh).
    rewrite (lstrip_id rest Hh), (IH Hrest). reflexivity.
  - now rewrite (IH Hrest).
Qed.

Lemma rstrip_id s : spaced s -> rstrip s = s.
Proof.
  induction s as [| c rest IH]; [reflexivity |]. intros [Hc Hrest].
  simpl. rewrite (IH Hrest). destruct rest as [| d t]; [| reflexivity].
  destruct (is_space c); [| reflexivity].
  destruct (Hc eq_refl) as (_ & Hne & _). now contradict Hne.
Qed.

Lemma strip_collapse_id s : spaced s -> headed s -> strip (R1 s) = s.
Proof.
  intros Hs Hh. rewrite (collapse_spaced s Hs). unfold strip.
  rewrite (lstrip_id s Hh). apply rstrip_id, Hs.
Qed.

(** The second rewrite on such a text: a single space goes when a
    punctuation mark follows it. *)
Lemma unspace_spaced_step c rest :
  spaced (c :: rest) -> is_space c = true ->
  exists d t,
    rest = d :: t /\ is_space d = false /\
    R2 (c :: rest) = if is_punct d then R2 rest else c :: R2 rest.
Proof.
  intros [Hc _] Hs. destruct (Hc Hs) as (_ & Hne & Hh).
  destruct rest as [| d t]; [easy |]. exists d, t.
  split; [reflexivity |]. split; [exact Hh |].
  rewrite unspace_cons, Hs, (lstrip_id (d :: t) Hh).
  destruct (is_punct d); [| reflexivity].
  now rewrite (unspace_keep d t Hh).
Qed.

Lemma unspace_spaced s : spaced s -> spaced (R2 s).
Proof.
  induction s as [| c rest IH]; [easy |]. intros H.
  pose proof (IH (proj2 H)) as IHrest.
  destruct (is_space c) eqn:E.
  - destruct (unspace_spaced_step c rest H E) as (d & t & -> & Hd & ->).
    destruct (is_punct d); [exact IHrest |].
    split; [| exact IHrest]. intros _. destruct H as [Hc _].
    destruct (Hc E) as (-> & _ & _). rewrite (unspace_keep d t Hd).
    split; [reflexivity |]. split; [discriminate | exact Hd].
  - rewrite (unspace_keep c rest E). split; [congruence | exact IHrest].
Qed.

Lemma unspace_unspaced s : spaced s -> unspaced (R2 s).
Proof.
  induction s as [| c rest IH]; [easy |]. intros H.
  pose proof (IH (proj2 H)) as IHrest.
  destruct (is_space c) eqn:E.
  - destruct (unspace_spaced_step c rest H E) as (d & t & -> & Hd & ->).
    destruct (is_punct d) eqn:Ep; [exact IHrest |].
    split; [| exact IHrest]. intros _. now rewrite (unspace_keep d t Hd).
  - rewrite (unspace_keep c rest E). split; [congruence | exact IHrest].
Qed.

(** The third rewrite keeps the shape. *)
Lemma respace_spaced s : spaced s -> spaced (R3 s).
Proof.
  induction s as [s IH] using str_length_ind.
  destruct s as [| p rest]; intros H; [exact I |].
  rewrite respace_cons. destruct rest as [| c after].
  - exact H.
  - destruct H as [Hp [Hc Hafter]].
    destruct (is_punct p && negb (is_space c)) eqn:E.
    + apply andb_true_iff in E as [Ep Ec]. apply negb_true_iff in Ec.
      split; [intros Hs; apply punct_not_space in Ep; congruence |].
      split; [intros _; split; [reflexivity | split; [discriminate | exact Ec]] |].
      split; [congruence |]. apply IH; [simpl; lia | exact Hafter].
    + assert (Hrest : spaced (R3 (c :: after))).
      { apply IH; [simpl; lia | split; assumption]. }
      split; [| exact Hrest]. intros Hs. destruct (Hp Hs) as (-> & _ & Hh).
      split; [reflexivity |].
      split; [apply respace_nonempty; discriminate | apply respace_headed, Hh].
Qed.

(** Whitespace passes through the third rewrite. *)
Lemma respace_lstrip s : lstrip (R3 s) = R3 (lstrip s).
Proof.
  induction s as [| c rest IH]; [reflexivity |]. cbn [lstrip].
  destruct (is_space c) eqn:E.
  - rewrite (respace_keep c rest (space_not_punct c E)). cbn [lstrip].
    now rewrite E.
  - destruct (respace_head c rest) as [t' ->]. cbn [lstrip]. now rewrite E.
Qed.

Lemma unspaced_after_run s :
  forall a, unspaced (a :: s) -> is_space a = true ->
  match lstrip s with d :: _ => is_punct d = false | [] => True end.
Proof.
  induction s as [| b s' IH]; intros a [Ha Hrest] Hs; [exact I |].
  cbn [lstrip]. destruct (is_space b) eqn:E.
  - apply (IH b Hrest E).
  - apply Ha, Hs.
Qed.

(** A whitespace character of an [unspaced] text stays after the third
    rewrite and the second. *)
Lemma unspace_respace_keep a s :
  is_space a = true -> unspaced (a :: s) ->
  R2 (a :: R3 s) = a :: R2 (R3 s).
Proof.
  intros Hs Hu. rewrite unspace_cons, Hs, respace_lstrip.
  pose proof (unspaced_after_run s a Hu Hs) as Hd.
  destruct (lstrip s) as [| d u]; [reflexivity |].
  destruct (respace_head d u) as [t' ->]. now rewrite Hd.
Qed.

(** The heart of idempotence: on a text with no whitespace before
    punctuation, the second and third rewrites undo and redo exactly the
    spaces the third rewrite has put in. *)
Lemma respace_unspace_respace z : unspaced z -> R3 (R2 (R3 z)) = R3 z.
Proof.
  induction z as [z IH] using str_length_ind.
  destruct z as [| a rest]; intros Hu; [reflexivity |].
  destruct rest as [| c tl].
  { rewrite respace_cons.
    destruct (is_space a) eqn:Ea.
    - rewrite unspace_cons, Ea. reflexivity.
    - rewrite (unspace_keep a [] Ea). reflexivity. }
  assert (Hu1 : unspaced (c :: tl)) by apply Hu.
  assert (Hu2 : unspaced tl) by apply Hu1.
  assert (IH1 : R3 (R2 (R3 (c :: tl))) = R3 (c :: tl))
    by (apply IH; [simpl; lia | exact Hu1]).
  assert (IH2 : R3 (R2 (R3 tl)) = R3 tl)
    by (apply IH; [simpl; lia | exact Hu2]).
  rewrite (respace_cons a (c :: tl)).
  destruct (is_punct a) eqn:Ep; destruct (is_space c) eqn:Ec; cbn [andb negb].
  - (* a mark, then whitespace: nothing inserted *)
    pose proof (punct_not_space a Ep) as Ea.
    rewrite (unspace_keep a _ Ea).
    rewrite (respace_keep c tl (space_not_punct c Ec)).
    rewrite (unspace_respace_keep c tl Ec Hu1).
    rewrite respace_cons, Ep, Ec. cbn [andb negb]. f_equal.
    rewrite <- (unspace_respace_keep c tl Ec Hu1).
    rewrite <- (respace_keep c tl (space_not_punct c Ec)). exact IH1.
  - (* a mark, then a character: a space was inserted *)
    pose proof (punct_not_space a Ep) as Ea.
    rewrite (unspace_keep a _ Ea).
    rewrite unspace_cons, is_space_SPACE.
    rewrite (lstrip_id (c :: R3 tl)) by exact Ec.
    destruct (is_punct c) eqn:Epc.
    + rewrite respace_cons, Ep, Ec. cbn [andb negb]. now rewrite IH2.
    + rewrite (unspace_keep c _ Ec).
      rewrite respace_cons, Ep, is_space_SPACE. cbn [andb negb].
      rewrite (respace_keep SPACE) by reflexivity.
      rewrite (respace_keep c _ Epc). now rewrite IH2.
  - (* not a mark *)
    destruct (is_space a) eqn:Ea.
    + rewrite (unspace_respace_keep a (c :: tl) Ea Hu).
      rewrite (respace_keep a _ Ep). now rewrite IH1.
    + rewrite (unspace_keep a _ Ea), (respace_keep a _ Ep). now rewrite IH1.
  - destruct (is_space a) eqn:Ea.
    + rewrite (unspace_respace_keep a (c :: tl) Ea Hu).
      rewrite (respace_keep a _ Ep). now rewrite IH1.
    + rewrite (unspace_keep a _ Ea), (respace_keep a _ Ep). now rewrite IH1.
Qed.

End Rewrites.

(** C3. Applying the three rewrites (with the [strip] of the first) to
    their own result gives that result again. *)
Theorem C3_normalize_idempotent x : normalize (normalize x) = normalize x.
Proof.
  unfold normalize.
  destruct (strip_collapse_tidy x) as [Hs Hh].
  set (y := strip (re_sub spaces_to_one x)) in *.
  pose proof (unspace_spaced y Hs) as Hs2.
  pose proof (unspace_headed y Hh) as Hh2.
  pose proof (unspace_unspaced y Hs) as Hu.
  set (z := re_sub space_before_punct y) in *.
  rewrite (strip_collapse_id (re_sub punct_then_char z)
             (respace_spaced z Hs2) (respace_headed z Hh2)).
  apply respace_unspace_respace, Hu.
Qed.

(** ** Further cases of the design document's test list *)

Example normalize_stray_spacing :
  normalize (lit "hello , world !") = lit "hello, world!".
Proof. vm_compute. reflexivity. Qed.

(** One pass: of three occurrences in a row the first two are merged and
    the third stays. *)
Example dedup_three_in_a_row :
  dedup_phrases (lit "so it goes so it goes so it goes")
  = lit "so it goes so it goes".
Proof. vm_compute. reflexivity. Qed.

(** ** More about the segment loop *)

Lemma same_output_refl st : same_output st st.
Proof. repeat split. Qed.

Lemma same_output_step lower st1 st2 segment :
  same_output st1 st2 ->
  fst (process_segment lower st1 segment) = fst (process_segment lower st2 segment) /\
  same_output (snd (process_segment lower st1 segment))
              (snd (process_segment lower st2 segment)).
Proof.
  intros (Hf & Hs & Hc & Hl). rewrite !process_segment_eq. cbv zeta.
  rewrite Hf, Hl.
  destruct (QualityFilter_rejects segment); [repeat split; assumption |].
  destruct (is_repetitive _ _ _); [repeat split; assumption |].
  destruct (is_exact_repetition _ _); [repeat split; assumption |].
  unfold append_segment, same_output. cbn [fst snd full_text segments_list
    segment_count last_segment_text]. rewrite Hf, Hs, Hc. repeat split.
Qed.

Lemma same_output_run lower segments :
  forall st1 st2,
    same_output st1 st2 ->
    same_output (run_from lower st1 segments) (run_from lower st2 segments).
Proof.
  induction segments as [| segment rest IH]; intros st1 st2 H; [exact H |].
  rewrite !run_from_cons. apply IH, same_output_step, H.
Qed.

Lemma same_output_finish lang st1 st2 :
  same_output st1 st2 -> finish lang st1 = finish lang st2.
Proof. intros (Hf & Hs & _ & _). unfold finish. now rewrite Hf, Hs. Qed.

Lemma rejected_same_output lower st segment :
  fst (process_segment lower st segment) <> Accepted ->
  same_output (snd (process_segment lower st segment)) st.
Proof.
  case_process lower st segment; cbn [fst snd]; intros H;
    try (repeat split; fail). now contradict H.
Qed.

(** X1. A segment that is not accepted (skipped by the quality tests or as
    a repetition) leaves no trace in the result: the stream without it gives
    the same result dictionary. *)
Theorem rejected_segment_invisible lower lang pre segment post :
  fst (process_segment lower (run lower pre) segment) <> Accepted ->
  collect lower lang (Yields (pre ++ segment :: post))
  = collect lower lang (Yields (pre ++ post)).
Proof.
  intros H. unfold collect, run. f_equal.
  rewrite !run_from_app, run_from_cons.
  apply same_output_finish, same_output_run, rejected_same_output, H.
Qed.

Lemma rejected_segment_invisible_witness :
  collect ascii_lower (lit "en")
    (Yields ([seg "hello world"] ++ seg "hello  world" :: [seg "goodbye"]))
  = collect ascii_lower (lit "en")
      (Yields ([seg "hello world"] ++ [seg "goodbye"])).
Proof.
  apply (rejected_segment_invisible ascii_lower (lit "en")
           [seg "hello world"] (seg "hello  world") [seg "goodbye"]).
  vm_compute. discriminate.
Defined.

Lemma accepted_from lower segments :
  forall st,
    exists kept,
      sublist kept segments /\
      Forall (fun s => QualityFilter_rejects s = false) kept /\
      segments_list (run_from lower st segments)
      = segments_list st ++ map recorded kept.
Proof.
  induction segments as [| segment rest IH]; intros st.
  - exists []. split; [constructor |]. split; [constructor |].
    simpl. now rewrite app_nil_r.
  - rewrite run_from_cons.
    destruct (IH (snd (process_segment lower st segment))) as (kept & Hsub & Hq & ->).
    case_process lower st segment; cbn [snd skip_repetition segments_list];
      try (exists kept; split; [now apply sublist_cons | split; [exact Hq | reflexivity]]).
    exists (segment :: kept). split; [now apply sublist_skip |].
    split; [now constructor |].
    cbn [append_segment segments_list map]. now rewrite <- app_assoc.
Qed.

(** X2. The segments of the result are taken from the stream in stream
    order, each with its text stripped and its own timestamps, and every one
    of them passed the quality tests. *)
Theorem accepted_segments_from_stream lower segs :
  exists kept,
    sublist kept segs /\
    Forall (fun s => QualityFilter_rejects s = false) kept /\
    segments_list (run lower segs) = map recorded kept.
Proof.
  destruct (accepted_from lower segs initial) as (kept & Hsub & Hq & E).
  exists kept. split; [exact Hsub |]. split; [exact Hq | exact E].
Qed.

Lemma last_text_snoc l r : last_text (l ++ [r]) = text r.
Proof. unfold last_text. now rewrite last_snoc. Qed.

Lemma last_text_step lower st segment :
  last_segment_text st = last_text (segments_list st) ->
  last_segment_text (snd (process_segment lower st segment))
  = last_text (segments_list (snd (process_segment lower st segment))).
Proof.
  intros H. case_process lower st segment; cbn [snd]; try exact H.
  cbn [append_segment last_segment_text segments_list].
  now rewrite last_text_snoc.
Qed.

Lemma no_near_repeat_step lower st segment :
  last_segment_text st = last_text (segments_list st) ->
  (forall i a b,
     segments_list st !! i = Some a -> segments_list st !! S i = Some b ->
     is_repetitive lower (text a) (text b) = false) ->
  forall i a b,
    segments_list (snd (process_segment lower st segment)) !! i = Some a ->
    segments_list (snd (process_segment lower st segment)) !! S i = Some b ->
    is_repetitive lower (text a) (text b) = false.
Proof.
  intros Hl Hadj. case_process lower st segment; cbn [snd]; try exact Hadj.
  cbn [append_segment segments_list]. intros i a b Ha Hb.
  set (r := {| text := strip (text segment); start := start segment;
               end_ := end_ segment |}) in *.
  destruct (decide (S i < length (segments_list st))) as [Hlt | Hge].
  - rewrite lookup_app_l in Ha by lia. rewrite lookup_app_l in Hb by lia.
    apply (Hadj i a b Ha Hb).
  - assert (Hlen : S i = length (segments_list st)).
    { apply lookup_lt_Some in Hb. rewrite length_app in Hb. simpl in Hb. lia. }
    rewrite lookup_app_l in Ha by lia.
    rewrite lookup_app_r in Hb by lia.
    replace (S i - length (segments_list st)) with 0 in Hb by lia.
    injection Hb as <-. cbn [text r].
    assert (Hlast : last (segments_list st) = Some a).
    { rewrite last_lookup. rewrite <- Hlen. exact Ha. }
    unfold last_text in Hl. rewrite Hlast in Hl. rewrite <- Hl. assumption.
Qed.

Lemma no_near_repeat_from lower segments :
  forall st,
    last_segment_text st = last_text (segments_list st) ->
    (forall i a b,
       segments_list st !! i = Some a -> segments_list st !! S i = Some b ->
       is_repetitive lower (text a) (text b) = false) ->
    forall i a b,
      segments_list (run_from lower st segments) !! i = Some a ->
      segments_list (run_from lower st segments) !! S i = Some b ->
      is_repetitive lower (text a) (text b) = false.
Proof.
  induction segments as [| segment rest IH]; intros st Hl Hadj; [exact Hadj |].
  rewrite run_from_cons. apply IH.
  - apply last_text_step, Hl.
  - apply no_near_repeat_step; assumption.
Qed.

(** X3. No two neighbours in the result's segment list are a repetition of
    each other: for every accepted segment, the similarity test against the
    segment accepted just before it was negative. *)
Theorem neighbours_never_repetitive lower segs i a b :
  segments_list (run lower segs) !! i = Some a ->
  segments_list (run lower segs) !! S i = Some b ->
  is_repetitive lower (text a) (text b) = false.
Proof.
  apply (no_near_repeat_from lower segs initial); [reflexivity |].
  intros j x y H. discriminate H.
Qed.

Lemma neighbours_never_repetitive_witness :
  is_repetitive ascii_lower (lit "hello world") (lit "hello there") = false.
Proof.
  apply (neighbours_never_repetitive ascii_lower
           [seg "hello world"; seg "world hello"; seg " hello there "] 0
           (seg "hello world") (seg "hello there")); reflexivity.
Defined.

Lemma text_ends_step lower st segment :
  last_segment_text st `suffix_of` full_text st ->
  last_segment_text (snd (process_segment lower st segment))
    `suffix_of` full_text (snd (process_segment lower st segment)).
Proof.
  intros H. case_process lower st segment; cbn [snd]; try exact H.
  cbn [append_segment last_segment_text full_text]. apply suffix_app_r.
  reflexivity.
Qed.

Lemma text_ends_from lower segments :
  forall st,
    last_segment_text st `suffix_of` full_text st ->
    last_segment_text (run_from lower st segments)
      `suffix_of` full_text (run_from lower st segments).
Proof.
  induction segments as [| segment rest IH]; intros st H; [exact H |].
  rewrite run_from_cons. apply IH, text_ends_step, H.
Qed.

Lemma ending_is_exact_repetition full segment_text :
  segment_text <> [] ->
  segment_text `suffix_of` full ->
  is_exact_repetition full segment_text = true.
Proof.
  intros Hne [k ->]. unfold is_exact_repetition.
  rewrite (slice_from_tail _ _ Hne). apply contains_spec.
  unfold tailWindow, last_chars, exactMatchWindowMultiplier.
  rewrite length_app.
  exists (drop (length k + length segment_text - 3 * length segment_text) k), [].
  rewrite app_nil_r, drop_app_le by lia. reflexivity.
Qed.

(** X4. A segment whose stripped text is the text of the last accepted
    segment is never accepted, whatever the similarity test says: the running
    text ends with that text, so the exact-repetition test catches it. *)
Theorem verbatim_repeat_never_accepted lower pre segment :
  last_segment_text (run lower pre) <> [] ->
  strip (text segment) = last_segment_text (run lower pre) ->
  fst (process_segment lower (run lower pre) segment) <> Accepted.
Proof.
  intros Hne E.
  assert (Hend : last_segment_text (run lower pre) `suffix_of` full_text (run lower pre)).
  { apply (text_ends_from lower pre initial). reflexivity. }
  rewrite <- E in Hne, Hend.
  pose proof (ending_is_exact_repetition _ _ Hne Hend) as Hex.
  rewrite process_segment_eq. cbv zeta. rewrite Hex.
  destruct (QualityFilter_rejects segment); [discriminate |].
  destruct (is_repetitive _ _ _); discriminate.
Qed.

Lemma verbatim_repeat_never_accepted_witness :
  fst (process_segment ascii_lower
         (run ascii_lower [seg "hello world"; seg "aaaa"]) (seg " hello world "))
  <> Accepted.
Proof.
  apply (verbatim_repeat_never_accepted ascii_lower
           [seg "hello world"; seg "aaaa"] (seg " hello world ")).
  - vm_compute. discriminate.
  - reflexivity.
Defined.

Lemma trace_from_length lower segments :
  forall st, length (trace_from lower st segments) = length segments.
Proof.
  induction segments as [| segment rest IH]; intros st; [reflexivity |].
  rewrite trace_from_cons. simpl. now rewrite IH.
Qed.

Lemma quality_skips_from lower segments :
  forall st,
    length (List.filter (fun o => negb (is_repetition o || is_accepted o))
              (trace_from lower st segments))
    = length (List.filter QualityFilter_rejects segments).
Proof.
  induction segments as [| segment rest IH]; intros st; [reflexivity |].
  rewrite trace_from_cons. cbn [List.filter].
  case_process lower st segment;
    cbn [fst snd is_repetition is_accepted orb negb length]; now rewrite IH.
Qed.

Lemma outcome_partition (l : list Outcome) :
  length (List.filter is_accepted l) + length (List.filter is_repetition l)
  + length (List.filter (fun o => negb (is_repetition o || is_accepted o)) l)
  = length l.
Proof.
  induction l as [| o l IH]; [reflexivity |].
  destruct o; cbn [List.filter is_accepted is_repetition orb negb length]; lia.
Qed.

(** X5. Every segment of the stream is accounted for exactly once: the
    accepted ones (the counter equals the length of the result's segment
    list), the ones counted as repetitions, and the ones that fail the
    quality tests add up to the length of the stream. *)
Theorem every_segment_accounted lower segs :
  segment_count (run lower segs) = length (segments_list (run lower segs)) /\
  segment_count (run lower segs) + repetition_count (run lower segs)
  + length (List.filter QualityFilter_rejects segs)
  = length segs.
Proof.
  destruct (counters_run_from lower segs initial) as [Hr Ha].
  split.
  - apply (assembled_run_from lower segs initial). split; reflexivity.
  - unfold run. rewrite Hr, Ha. cbn [initial repetition_count segment_count].
    pose proof (quality_skips_from lower segs initial) as Hq.
    pose proof (trace_from_length lower segs initial) as Hlen.
    pose proof (outcome_partition (trace_from lower initial segs)) as Hp.
    lia.
Qed.

(** ** More about [split], [join] and the rewrites *)

Lemma split_from_word w :
  spaceless w ->
  forall cur rest, split_from cur (w ++ rest) = split_from (cur ++ w) rest.
Proof.
  induction w as [| c w IH]; intros Hw cur rest.
  - now rewrite app_nil_r.
  - inversion Hw as [| ? ? Hc Hw']; subst. cbn [app split_from]. rewrite Hc.
    rewrite (IH Hw'). now rewrite <- app_assoc.
Qed.

Lemma split_from_nonempty s : forall cur, cur <> [] -> split_from cur s <> [].
Proof.
  induction s as [| c rest IH]; intros cur Hcur; simpl.
  - destruct cur; [easy | discriminate].
  - destruct (is_space c).
    + destruct cur; [easy | discriminate].
    + apply IH. destruct cur; discriminate.
Qed.

Lemma split_from_words_nonempty s :
  forall cur, Forall (fun w => w <> []) (split_from cur s).
Proof.
  induction s as [| c rest IH]; intros cur; simpl.
  - destruct cur; [constructor | constructor; [discriminate | constructor]].
  - destruct (is_space c); [| apply IH].
    destruct cur; [apply IH |]. constructor; [discriminate | apply IH].
Qed.

Lemma split_wordlike s : Forall wordlike (split s).
Proof.
  pose proof (split_spaceless s) as H1.
  pose proof (split_from_words_nonempty s []) as H2. fold (split s) in H2.
  rewrite Forall_forall in *. intros w Hw. split; [apply H2, Hw | apply H1, Hw].
Qed.

Lemma split_join ws : Forall wordlike ws -> split (join ws) = ws.
Proof.
  induction ws as [| w ws IH]; intros H; [reflexivity |].
  inversion H as [| ? ? [Hne Hw] Hrest]; subst. rewrite join_cons. unfold split.
  destruct ws as [| w' ws'].
  - rewrite <- (app_nil_r w) at 1. rewrite (split_from_word w Hw). simpl.
    destruct w; [easy | reflexivity].
  - rewrite (split_from_word w Hw). cbn [app split_from]. rewrite is_space_SPACE.
    destruct w; [easy |]. f_equal. apply (IH Hrest).
Qed.

Lemma join_split_from s :
  spaced s ->
  forall cur, cur <> [] \/ headed s -> join (split_from cur s) = cur ++ s.
Proof.
  induction s as [| c rest IH]; intros Hs cur Hc.
  - simpl. destruct cur; [reflexivity | now rewrite app_nil_r].
  - destruct Hs as [Hws Hrest]. cbn [split_from].
    destruct (is_space c) eqn:E.
    + destruct (Hws eq_refl) as (-> & Hne & Hh).
      destruct Hc as [Hc | Hc]; [| simpl in Hc; congruence].
      destruct cur as [| x cur]; [easy |].
      rewrite join_cons.
      pose proof (IH Hrest [] (or_intror Hh)) as IHrest.
      destruct (split_from [] rest) eqn:Es.
      * simpl in IHrest. now subst rest.
      * rewrite IHrest. reflexivity.
    + rewrite (IH Hrest (cur ++ [c])).
      * now rewrite <- app_assoc.
      * left. destruct cur; discriminate.
Qed.

Lemma join_split s : spaced s -> headed s -> join (split s) = s.
Proof. intros Hs Hh. apply (join_split_from s Hs []). now right. Qed.

Lemma normalize_tidy x : spaced (normalize x) /\ headed (normalize x).
Proof.
  unfold normalize. destruct (strip_collapse_tidy x) as [Hs Hh]. split.
  - apply respace_spaced, unspace_spaced, Hs.
  - apply respace_headed, unspace_headed, Hh.
Qed.

Lemma spaced_only_SPACE s :
  spaced s -> Forall (fun c => is_space c = true -> c = SPACE) s.
Proof.
  induction s as [| c rest IH]; intros H; [constructor |].
  destruct H as [Hc Hrest]. constructor; [| apply IH, Hrest].
  intros E. apply (Hc E).
Qed.

Lemma normalize_shaped x :
  strip (normalize x) = normalize x /\
  Forall (fun c => is_space c = true -> c = SPACE) (normalize x) /\
  join (split (normalize x)) = normalize x.
Proof.
  destruct (normalize_tidy x) as [Hs Hh]. split; [| split].
  - unfold strip. rewrite (lstrip_id _ Hh). apply rstrip_id, Hs.
  - apply spaced_only_SPACE, Hs.
  - apply join_split; assumption.
Qed.

(** X6. After the three rewrites the text has no whitespace at either end,
    its only whitespace character is the plain space, and spaces come one at
    a time between words: splitting it into words and joining them with
    single spaces gives the text back. *)
Theorem normalize_shape x :
  strip (normalize x) = normalize x /\
  Forall (fun c => is_space c = true -> c = SPACE) (normalize x) /\
  join (split (normalize x)) = normalize x.
Proof. exact (normalize_shaped x). Qed.

Lemma ink_keep c s : is_space c = false -> ink (c :: s) = c :: ink s.
Proof. intros H. unfold ink. cbn [List.filter]. now rewrite H. Qed.

Lemma ink_skip c s : is_space c = true -> ink (c :: s) = ink s.
Proof. intros H. unfold ink. cbn [List.filter]. now rewrite H. Qed.

Lemma ink_lstrip s : ink (lstrip s) = ink s.
Proof.
  induction s as [| c rest IH]; [reflexivity |]. cbn [lstrip].
  destruct (is_space c) eqn:E; [| reflexivity]. now rewrite (ink_skip c rest E).
Qed.

Lemma ink_rstrip s : ink (rstrip s) = ink s.
Proof.
  induction s as [| c rest IH]; [reflexivity |]. cbn [rstrip].
  destruct (rstrip rest) as [| k ks].
  - destruct (is_space c) eqn:E.
    + rewrite (ink_skip c rest E), <- IH. reflexivity.
    + rewrite !(ink_keep c _ E), <- IH. reflexivity.
  - destruct (is_space c) eqn:E.
    + now rewrite !(ink_skip c _ E).
    + now rewrite !(ink_keep c _ E), IH.
Qed.

Lemma ink_collapse s : ink (re_sub spaces_to_one s) = ink s.
Proof.
  induction s as [s IH] using str_length_ind. destruct s as [| c rest]; [reflexivity |].
  rewrite collapse_cons. destruct (is_space c) eqn:E.
  - rewrite (ink_skip SPACE _ is_space_SPACE), (ink_skip c rest E).
    rewrite IH by (pose proof (lstrip_length rest); simpl; lia).
    apply ink_lstrip.
  - rewrite !(ink_keep c _ E). f_equal. apply IH. simpl. lia.
Qed.

Lemma ink_unspace s : ink (re_sub space_before_punct s) = ink s.
Proof.
  induction s as [s IH] using str_length_ind. destruct s as [| c rest]; [reflexivity |].
  rewrite unspace_cons. destruct (is_space c) eqn:E.
  - pose proof (lstrip_length rest) as Hlen. pose proof (ink_lstrip rest) as Hink.
    destruct (lstrip rest) as [| p after].
    + rewrite !(ink_skip c _ E). apply IH. simpl. lia.
    + destruct (is_punct p) eqn:Ep.
      * rewrite (ink_skip c rest E), <- Hink.
        rewrite !(ink_keep p _ (punct_not_space p Ep)). f_equal.
        apply IH. simpl in *. lia.
      * rewrite !(ink_skip c _ E). apply IH. simpl. lia.
  - rewrite !(ink_keep c _ E). f_equal. apply IH. simpl. lia.
Qed.

Lemma ink_respace s : ink (re_sub punct_then_char s) = ink s.
Proof.
  induction s as [s IH] using str_length_ind. destruct s as [| p rest]; [reflexivity |].
  rewrite respace_cons. destruct rest as [| c after]; [reflexivity |].
  destruct (is_punct p && negb (is_space c)) eqn:E.
  - apply andb_true_iff in E as [Ep Ec]. apply negb_true_iff in Ec.
    pose proof (punct_not_space p Ep) as Eps.
    rewrite !(ink_keep p _ Eps), (ink_skip SPACE _ is_space_SPACE).
    rewrite !(ink_keep c _ Ec). do 2 f_equal. apply IH. simpl. lia.
  - destruct (is_space p) eqn:Eps.
    + rewrite !(ink_skip p _ Eps). apply IH. simpl. lia.
    + rewrite !(ink_keep p _ Eps). f_equal. apply IH. simpl. lia.
Qed.

Lemma ink_normalize x : ink (normalize x) = ink x.
Proof.
  unfold normalize, strip.
  now rewrite ink_respace, ink_unspace, ink_rstrip, ink_lstrip, ink_collapse.
Qed.

(** X7. The three rewrites only touch whitespace: the characters that are
    not whitespace are the same, in the same order, before and after. *)
Theorem normalize_keeps_ink x : ink (normalize x) = ink x.
Proof. exact (ink_normalize x). Qed.

(** ** More about the phrase pass *)

Lemma dedup_loop_sublist words :
  forall n i cleaned_words,
    length words - i <= n ->
    exists out,
      dedup_loop words i cleaned_words = cleaned_words ++ out /\
      out `sublist_of` drop i words.
Proof.
  induction n as [| n IH]; intros i cleaned Hn; rewrite dedup_loop_step.
  - destruct (lt_dec i (length words)); [lia |]. exists [].
    split; [now rewrite app_nil_r | apply sublist_nil_l].
  - destruct (lt_dec i (length words)) as [Hi | Hi].
    + destruct (find_repetition words i) as [L |] eqn:Ef.
      * assert (2 <= L <= 5).
        { unfold find_repetition in Ef. apply List.find_some in Ef as [Hin _].
          simpl in Hin. lia. }
        destruct (IH (i + L * 2) (cleaned ++ slice words i (i + L))) as (out & -> & Hsub);
          [lia |].
        exists (slice words i (i + L) ++ out). split; [now rewrite app_assoc |].
        unfold slice. replace (i + L - i) with L by lia.
        rewrite <- (take_drop L (drop i words)) at 2.
        apply sublist_app; [reflexivity |].
        etransitivity; [exact Hsub |].
        rewrite drop_drop. replace (i + L * 2) with (i + L + L) by lia.
        rewrite <- (drop_drop words L (i + L)). apply sublist_drop.
      * destruct (IH (i + 1) (cleaned ++ [nth i words []])) as (out & -> & Hsub);
          [lia |].
        exists (nth i words [] :: out). split; [now rewrite <- app_assoc |].
        destruct (drop i words) as [| w rest'] eqn:Ed.
        { apply (f_equal length) in Ed. rewrite length_drop in Ed. simpl in Ed. lia. }
        assert (Hw : nth i words [] = w).
        { rewrite <- (take_drop i words) at 1.
          rewrite Ed, app_nth2; rewrite length_take; [| lia].
          replace (i - i `min` length words) with 0 by lia. reflexivity. }
        rewrite Hw. apply sublist_skip.
        rewrite <- drop_drop, Ed in Hsub. exact Hsub.
    + exists []. split; [now rewrite app_nil_r | apply sublist_nil_l].
Qed.

Lemma dedup_loop_kept words :
  dedup_loop words 0 [] `sublist_of` words.
Proof.
  destruct (dedup_loop_sublist words (length words) 0 []) as (out & -> & Hsub);
    [lia |].
  exact Hsub.
Qed.

(** X8. The phrase pass only removes words: what it returns is the word
    sequence it was given with some words left out, none added, changed or
    reordered. *)
Theorem phrase_pass_only_removes words :
  dedup_loop words 0 [] `sublist_of` words.
Proof. exact (dedup_loop_kept words). Qed.

Lemma sublist_wordlike (l1 l2 : list str) :
  l1 `sublist_of` l2 -> Forall wordlike l2 -> Forall wordlike l1.
Proof.
  rewrite !Forall_forall. intros Hsub H w Hw.
  apply H. apply (elem_of_sublist l1 l2 w Hw Hsub).
Qed.

(** X9. The words of the returned transcript are exactly the words the
    phrase pass kept, separated by single spaces with none at the ends
    (splitting and re-joining the transcript gives it back); [wordCount] is
    their number, never more than the number of words of the assembled,
    rewritten text. *)
Theorem transcript_is_its_words lower lang segs :
  let words := split (normalize (full_text (run lower segs))) in
  let t := finish lang (run lower segs) in
  collect lower lang (Yields segs) = Success t /\
  split (transcript t) = dedup_loop words 0 [] /\
  join (split (transcript t)) = transcript t /\
  wordCount t = length (dedup_loop words 0 []) /\
  wordCount t <= length words.
Proof.
  cbv zeta. set (words := split (normalize (full_text (run lower segs)))).
  assert (Hsplit : split (join (dedup_loop words 0 [])) = dedup_loop words 0 []).
  { apply split_join. apply (sublist_wordlike _ words).
    - apply dedup_loop_kept.
    - apply split_wordlike. }
  unfold finish, dedup_phrases. cbn [transcript wordCount]. fold words.
  split; [reflexivity |]. split; [exact Hsplit |].
  split; [now rewrite Hsplit |]. split; [now rewrite Hsplit |].
  rewrite Hsplit. apply sublist_length, dedup_loop_kept.
Qed.

Lemma no_repeat_found words i :
  Forall spaceless words ->
  (forall L, 2 <= L <= 5 -> i + 2 * L <= length words ->
             slice words i (i + L) <> slice words (i + L) (i + 2 * L)) ->
  find_repetition words i = None.
Proof.
  intros Hw H. unfold find_repetition.
  assert (Hno : forall L, 2 <= L <= 5 -> repeats_at words i L = false).
  { intros L HL. unfold repeats_at.
    destruct (Nat.leb_spec (i + L * 2) (length words)) as [Hle | Hgt]; [| reflexivity].
    cbn [andb]. apply not_true_iff_false. intros E. apply eqb_str_eq in E.
    apply (H L HL); [lia |]. replace (i + 2 * L) with (i + L * 2) by lia.
    apply join_inj; [| | | exact E].
    - unfold slice. rewrite !length_take, !length_drop. lia.
    - unfold slice. apply Forall_take, Forall_drop, Hw.
    - unfold slice. apply Forall_take, Forall_drop, Hw. }
  cbn [List.find]. rewrite !Hno by lia. reflexivity.
Qed.

Lemma dedup_loop_no_repeats words :
  (forall i, i < length words -> find_repetition words i = None) ->
  forall n i cleaned_words,
    length words - i <= n ->
    dedup_loop words i cleaned_words = cleaned_words ++ drop i words.
Proof.
  intros Hnone. induction n as [| n IH]; intros i cleaned Hn;
    rewrite dedup_loop_step.
  - destruct (lt_dec i (length words)); [lia |].
    rewrite drop_ge by lia. now rewrite app_nil_r.
  - destruct (lt_dec i (length words)) as [Hi | Hi].
    + rewrite (Hnone i Hi), IH by lia. rewrite <- app_assoc. f_equal.
      destruct (drop i words) as [| w rest'] eqn:Ed.
      { apply (f_equal length) in Ed. rewrite length_drop in Ed. simpl in Ed. lia. }
      cbn [app]. f_equal.
      * rewrite <- (take_drop i words) at 1.
        rewrite Ed, app_nth2; rewrite length_take; [| lia].
        replace (i - i `min` length words) with 0 by lia. reflexivity.
      * rewrite <- drop_drop, Ed. reflexivity.
    + rewrite drop_ge by lia. now rewrite app_nil_r.
Qed.

(** X10. A text in which no phrase of 2 to 5 words is directly followed by
    itself comes out of the phrase pass as its words joined by single
    spaces; after the three rewrites that is the text itself, unchanged. *)
Theorem phrase_pass_without_repeats full_text :
  (forall i L,
     2 <= L <= 5 -> i + 2 * L <= length (split full_text) ->
     slice (split full_text) i (i + L)
     <> slice (split full_text) (i + L) (i + 2 * L)) ->
  dedup_phrases full_text = join (split full_text) /\
  (forall x, full_text = normalize x -> dedup_phrases full_text = full_text).
Proof.
  intros H.
  assert (E : dedup_phrases full_text = join (split full_text)).
  { unfold dedup_phrases. f_equal.
    rewrite (dedup_loop_no_repeats (split full_text)) with (n := length (split full_text));
      [reflexivity | | lia].
    intros i _. apply no_repeat_found; [apply split_spaceless |].
    intros L HL Hi. apply (H i L HL Hi). }
  split; [exact E |]. intros x ->. rewrite E.
  apply normalize_shaped.
Qed.

Lemma phrase_pass_without_repeats_witness :
  dedup_phrases (lit "to be or to do") = lit "to be or to do".
Proof.
  refine (proj1 (phrase_pass_without_repeats (lit "to be or to do") _)).
  intros i L HL Hi.
  change (length (split (lit "to be or to do"))) with 5 in Hi.
  assert (L = 2 /\ (i = 0 \/ i = 1)) as [-> [-> | ->]] by lia;
    vm_compute; discriminate.
Defined.

(** ** Loading the model and calling the engine *)

Lemma load_model_calls lower w model_size device :
  let calls := snd (load_model lower w model_size device) in
  if eqb_str device (lit "cuda") || eqb_str device (lit "gpu")
  then Forall (fun c => fst c = lit "cuda") calls /\ length calls <= 2
  else calls = [(lit "cpu", lit "int8")].
Proof.
  cbv zeta. unfold load_model.
  destruct (eqb_str device (lit "cuda") || eqb_str device (lit "gpu")).
  - destruct (gpu_report w); [split; [constructor | simpl; lia] |].
    destruct (WhisperModel w model_size (lit "cuda") (lit "float16"));
      [| split; [repeat constructor | simpl; lia]].
    destruct (mentions_cudnn lower s); [split; [repeat constructor | simpl; lia] |].
    destruct (WhisperModel w model_size (lit "cuda") (lit "int8_float16"));
      (split; [repeat constructor | simpl; lia]).
  - destruct (WhisperModel w model_size (lit "cpu") (lit "int8")); reflexivity.
Qed.

(** X11. The device argument alone decides where a model is built: with
    "cuda" or "gpu" every constructor call is for the GPU (at most two, and
    never a retreat to the CPU), with any other string the only possible
    call is the CPU one with int8. *)
Theorem device_decides_alone lower w file_path model_size language device :
  let calls := snd (transcribe_audio lower w file_path model_size language device) in
  if eqb_str device (lit "cuda") || eqb_str device (lit "gpu")
  then Forall (fun c => fst c = lit "cuda") calls /\ length calls <= 2
  else Forall (fun c => c = (lit "cpu", lit "int8")) calls /\ length calls <= 1.
Proof.
  cbv zeta. unfold transcribe_audio.
  pose proof (load_model_calls lower w model_size device) as H. cbv zeta in H.
  destruct (eqb_str device (lit "cuda") || eqb_str device (lit "gpu")).
  - destruct (negb (path_exists w file_path)); [split; [constructor | simpl; lia] |].
    destruct (torch_probe w); [split; [constructor | simpl; lia] |].
    destruct (load_model lower w model_size device) as [[[dev ct] | e] calls];
      [destruct (model_transcribe w dev ct) |]; exact H.
  - destruct (negb (path_exists w file_path)); [split; [constructor | simpl; lia] |].
    destruct (torch_probe w); [split; [constructor | simpl; lia] |].
    destruct (load_model lower w model_size device) as [[[dev ct] | e] calls];
      [destruct (model_transcribe w dev ct) |]; cbn [snd] in *; subst calls;
      (split; [repeat constructor | simpl; lia]).
Qed.

Lemma load_model_loaded lower w model_size device dev compute_type calls :
  load_model lower w model_size device = (inl (dev, compute_type), calls) ->
  exists earlier,
    calls = earlier ++ [(dev, compute_type)] /\
    WhisperModel w model_size dev compute_type = None /\
    Forall (fun c => WhisperModel w model_size (fst c) (snd c) <> None) earlier.
Proof.
  unfold load_model.
  destruct (eqb_str device (lit "cuda") || eqb_str device (lit "gpu")).
  - destruct (gpu_report w); [discriminate |].
    destruct (WhisperModel w model_size (lit "cuda") (lit "float16")) as [e |] eqn:E1.
    + destruct (mentions_cudnn lower e); [discriminate |].
      destruct (WhisperModel w model_size (lit "cuda") (lit "int8_float16")) eqn:E2;
        [discriminate |].
      intros [= <- <- <-]. exists [(lit "cuda", lit "float16")].
      split; [reflexivity |]. split; [exact E2 |].
      constructor; [cbn [fst snd]; now rewrite E1 | constructor].
    + intros [= <- <- <-]. exists []. split; [reflexivity |].
      split; [exact E1 | constructor].
  - destruct (WhisperModel w model_size (lit "cpu") (lit "int8")) eqn:E;
      [discriminate |].
    intros [= <- <- <-]. exists []. split; [reflexivity |].
    split; [exact E | constructor].
Qed.

(** X12. A successful result means: the file exists, the last constructor
    call built the model and every call before it failed, the engine
    delivered its segments to the end, and the result is the clean-up of the
    loop over those segments. *)
Theorem success_means_loaded lower w file_path model_size language device t :
  fst (transcribe_audio lower w file_path model_size language device)
  = Reply_result (Success t) ->
  path_exists w file_path = true /\
  exists earlier dev compute_type segs info_language,
    snd (transcribe_audio lower w file_path model_size language device)
    = earlier ++ [(dev, compute_type)] /\
    WhisperModel w model_size dev compute_type = None /\
    Forall (fun c => WhisperModel w model_size (fst c) (snd c) <> None) earlier /\
    model_transcribe w dev compute_type = (Yields segs, info_language) /\
    t = finish (detected info_language language) (run lower segs).
Proof.
  unfold transcribe_audio.
  destruct (path_exists w file_path); cbn [negb]; [| discriminate].
  destruct (torch_probe w); [discriminate |].
  destruct (load_model lower w model_size device) as [[[dev ct] | e] calls] eqn:El;
    [| discriminate].
  destruct (load_model_loaded _ _ _ _ _ _ _ El) as (earlier & -> & Hok & Hfail).
  destruct (model_transcribe w dev ct) as [src info_language] eqn:Em.
  cbn [fst snd]. destruct src as [segs | segs msg tb]; cbn [collect];
    [| discriminate].
  intros [= <-]. split; [reflexivity |].
  exists earlier, dev, ct, segs, info_language. repeat split; assumption.
Qed.

Lemma success_means_loaded_witness :
  let w := {| path_exists := fun _ => true; torch_probe := None;
              gpu_report := None;
              WhisperModel := fun _ _ ct =>
                if eqb_str ct (lit "float16") then Some (lit "no float16") else None;
              model_transcribe := fun _ _ => (Yields [seg "hello world"], Some (lit "en"));
              format_exc := fun e => e |} in
  snd (transcribe_audio ascii_lower w (lit "a.wav") (lit "base") None (lit "gpu"))
  = [(lit "cuda", lit "float16"); (lit "cuda", lit "int8_float16")].
Proof.
  intros w.
  destruct (success_means_loaded ascii_lower w (lit "a.wav") (lit "base") None
              (lit "gpu") (finish (lit "en") (run ascii_lower [seg "hello world"]))
              eq_refl) as (_ & earlier & dev & ct & segs & il & E & _).
  reflexivity.
Defined.

(** ** The entry point *)

Lemma argv_at_padded (argv : list str) k : argv_at (argv ++ [[]]) k = argv_at argv k.
Proof.
  unfold argv_at. rewrite length_app. cbn [length].
  destruct (Nat.ltb_spec k (length argv)) as [Hlt | Hge].
  - destruct (Nat.ltb_spec k (length argv + 1)); [| lia].
    now rewrite app_nth1 by lia.
  - destruct (Nat.ltb_spec k (length argv + 1)); [| reflexivity].
    rewrite app_nth2 by lia. replace (k - length argv) with 0 by lia.
    reflexivity.
Qed.

Lemma nth_take_lt {A} (l : list A) n k d : k < n -> nth k (take n l) d = nth k l d.
Proof.
  revert n k. induction l as [| x l IH]; intros [| n] [| k] H; try lia;
    try reflexivity.
  cbn [take nth]. apply IH. lia.
Qed.

Lemma argv_at_cut (argv : list str) k : k < 5 -> argv_at (take 5 argv) k = argv_at argv k.
Proof.
  intros Hk. unfold argv_at. rewrite length_take, nth_take_lt by lia.
  destruct (Nat.ltb_spec k (5 `min` length argv));
    destruct (Nat.ltb_spec k (length argv)); try lia; reflexivity.
Qed.

(** X13. What the entry point hands to [transcribe_audio]: the model size
    and the device are never empty, the language is never the empty string
    nor the string "None" (both mean no language); an empty argument at the
    end counts as a missing one, and arguments after the fifth are
    ignored. *)
Theorem parse_arguments_normalizes (argv : list str) a :
  parse_arguments argv = Some a ->
  arg_model_size a <> [] /\ arg_device a <> [] /\
  arg_language a <> Some [] /\ arg_language a <> Some (lit "None") /\
  parse_arguments (argv ++ [[]]) = Some a /\
  parse_arguments (take 5 argv) = Some a.
Proof.
  unfold parse_arguments. destruct (Nat.ltb_spec (length argv) 2) as [| Hlen];
    [discriminate |].
  intros H. apply (inj Some) in H. subst a.
  cbv beta match delta [arg_model_size arg_device arg_language].
  split; [| split; [| split; [| split; [| split]]]].
  - unfold argv_at. destruct ((2 <? length argv) && nonempty (nth 2 argv [])) eqn:E;
      cbn [default]; [| discriminate].
    apply andb_true_iff in E as [_ E]. now destruct (nth 2 argv []).
  - unfold argv_at. destruct ((4 <? length argv) && nonempty (nth 4 argv [])) eqn:E;
      cbn [default]; [| discriminate].
    apply andb_true_iff in E as [_ E]. now destruct (nth 4 argv []).
  - destruct (argv_at argv 3) as [l |]; [| discriminate].
    destruct (eqb_str l (lit "None") || eqb_str l []) eqn:E; [easy |].
    intros [= ->]. vm_compute in E. discriminate E.
  - destruct (argv_at argv 3) as [l |]; [| discriminate].
    destruct (eqb_str l (lit "None") || eqb_str l []) eqn:E; [easy |].
    intros [= ->]. vm_compute in E. discriminate E.
  - rewrite length_app. cbn [length].
    destruct (Nat.ltb_spec (length argv + 1) 2); [lia |].
    rewrite !argv_at_padded, app_nth1 by lia. reflexivity.
  - rewrite length_take. destruct (Nat.ltb_spec (5 `min` length argv) 2); [lia |].
    rewrite !argv_at_cut, nth_take_lt by lia. reflexivity.
Qed.

Lemma parse_arguments_normalizes_witness :
  parse_arguments [lit "transcribe_audio.py"; lit "a.wav"; []; lit "None"; []]
  = parse_arguments [lit "transcribe_audio.py"; lit "a.wav"].
Proof.
  destruct (parse_arguments_normalizes
              [lit "transcribe_audio.py"; lit "a.wav"]
              {| arg_file_path := lit "a.wav"; arg_model_size := lit "base";
                 arg_language := None; arg_device := lit "cpu" |} eq_refl)
    as (_ & _ & _ & _ & _ & _).
  reflexivity.
Defined.

(** ** [get_video_id] *)

Lemma take_id_spec n :
  forall s id,
    take_id n s = Some id
    <-> length id = n /\ forallb is_id_char id = true /\ exists post, s = id ++ post.
Proof.
  induction n as [| n IH]; intros s id; cbn [take_id].
  - split.
    + intros [= <-]. split; [reflexivity |]. split; [reflexivity |]. now exists s.
    + intros (Hlen & _ & _). destruct id; [reflexivity | discriminate Hlen].
  - destruct s as [| c rest].
    + split; [discriminate |]. intros (Hlen & _ & post & E).
      destruct id; [discriminate Hlen | discriminate E].
    + destruct (is_id_char c) eqn:Ec.
      * destruct (take_id n rest) as [cs |] eqn:Et.
        -- apply IH in Et as (Hlen & Hall & post & ->). split.
           ++ intros [= <-]. split; [simpl; lia |].
              split; [simpl; now rewrite Ec, Hall | now exists post].
           ++ intros (Hlen' & Hall' & post' & E). destruct id as [| d id];
                [discriminate Hlen' |].
              injection E as <- E. f_equal. f_equal.
              assert (Ht : take_id n (cs ++ post) = Some id).
              { apply IH. split; [simpl in Hlen'; lia |].
                split; [simpl in Hall'; now apply andb_true_iff in Hall' |].
                now exists post'. }
              assert (Hcs : take_id n (cs ++ post) = Some cs).
              { apply IH. split; [exact Hlen |]. split; [exact Hall |]. now exists post. }
              congruence.
        -- split; [discriminate |]. intros (Hlen' & Hall' & post' & E).
           destruct id as [| d id]; [discriminate Hlen' |]. injection E as <- ->.
           assert (Ht : take_id n (id ++ post') = Some id).
           { apply IH. split; [simpl in Hlen'; lia |].
             split; [simpl in Hall'; now apply andb_true_iff in Hall' |].
             now exists post'. }
           congruence.
      * split; [discriminate |]. intros (Hlen' & Hall' & post' & E).
        destruct id as [| d id]; [discriminate Hlen' |]. injection E as <- _.
        simpl in Hall'. rewrite Ec in Hall'. discriminate Hall'.
Qed.

Lemma id_pattern_spec s id :
  id_pattern s = Some id
  <-> video_id_shaped id /\
      exists post, s = lit "v=" ++ id ++ post \/ s = lit "/" ++ id ++ post.
Proof.
  unfold video_id_shaped, id_pattern. split.
  - destruct (starts_with (lit "v=") s) eqn:Ev.
    + apply starts_with_spec in Ev as [rest ->].
      change (drop 2 (lit "v=" ++ rest)) with rest. intros Ht.
      apply take_id_spec in Ht as (Hlen & Hall & post & ->).
      split; [split; assumption |]. exists post. now left.
    + destruct (starts_with (lit "/") s) eqn:Es; [| discriminate].
      apply starts_with_spec in Es as [rest ->].
      change (drop 1 (lit "/" ++ rest)) with rest. intros Ht.
      apply take_id_spec in Ht as (Hlen & Hall & post & ->).
      split; [split; assumption |]. exists post. now right.
  - intros [[Hlen Hall] (post & [-> | ->])].
    + change (starts_with (lit "v=") (lit "v=" ++ id ++ post)) with true.
      cbv iota. change (drop 2 (lit "v=" ++ id ++ post)) with (id ++ post).
      apply take_id_spec. split; [exact Hlen |]. split; [exact Hall |].
      now exists post.
    + change (starts_with (lit "v=") (lit "/" ++ id ++ post)) with false.
      change (starts_with (lit "/") (lit "/" ++ id ++ post)) with true.
      cbv iota. change (drop 1 (lit "/" ++ id ++ post)) with (id ++ post).
      apply take_id_spec. split; [exact Hlen |]. split; [exact Hall |].
      now exists post.
Qed.

Lemma search_id_sound s :
  forall id,
    search_id s = Some id ->
    exists pre rest, s = pre ++ rest /\ id_pattern rest = Some id.
Proof.
  induction s as [| c s IH]; intros id; cbn [search_id].
  - destruct (id_pattern []) eqn:E; [| discriminate].
    intros [= ->]. now exists [], [].
  - destruct (id_pattern (c :: s)) eqn:E.
    + intros [= ->]. now exists [], (c :: s).
    + intros H. destruct (IH id H) as (pre & rest & -> & Hp).
      now exists (c :: pre), rest.
Qed.

Lemma search_id_none s :
  search_id s = None -> forall pre rest, s = pre ++ rest -> id_pattern rest = None.
Proof.
  induction s as [| c s IH]; cbn [search_id].
  - destruct (id_pattern []) eqn:E; [discriminate |].
    intros _ pre rest H. symmetry in H. apply app_eq_nil in H as [_ ->]. exact E.
  - destruct (id_pattern (c :: s)) eqn:E; [discriminate |].
    intros H pre rest Hs. destruct pre as [| x pre].
    + simpl in Hs. now subst rest.
    + injection Hs as _ Hs. apply (IH H pre rest Hs).
Qed.

Lemma search_id_holds url id :
  get_video_id url = Some id ->
  video_id_shaped id /\
  exists pre post,
    url = pre ++ lit "v=" ++ id ++ post \/ url = pre ++ lit "/" ++ id ++ post.
Proof.
  intros H. apply search_id_sound in H as (pre & rest & -> & Hp).
  apply id_pattern_spec in Hp as [Hid (post & [-> | ->])];
    (split; [exact Hid |]); exists pre, post; [now left | now right].
Qed.

(** X14. [get_video_id] returns an id only if the URL holds it: eleven
    characters of letters, digits, [_] and [-] standing directly after "v="
    or after a "/". *)
Theorem get_video_id_sound url id :
  get_video_id url = Some id ->
  video_id_shaped id /\
  exists pre post,
    url = pre ++ lit "v=" ++ id ++ post \/ url = pre ++ lit "/" ++ id ++ post.
Proof. exact (search_id_holds url id). Qed.

Lemma get_video_id_sound_witness :
  video_id_shaped (lit "dQw4w9WgXcQ").
Proof.
  apply (get_video_id_sound (lit "https://youtu.be/dQw4w9WgXcQ?t=42")
           (lit "dQw4w9WgXcQ")).
  reflexivity.
Defined.

(** X15. [get_video_id] returns [None] exactly when the URL has no eleven
    such characters after any "v=" or "/". *)
Theorem get_video_id_none url :
  get_video_id url = None
  <-> forall pre id post,
        video_id_shaped id ->
        url <> pre ++ lit "v=" ++ id ++ post /\ url <> pre ++ lit "/" ++ id ++ post.
Proof.
  split.
  - intros H pre id post Hid.
    split; intros E;
      pose proof (search_id_none url H pre _ E) as Hn;
      assert (Hs : id_pattern (lit "v=" ++ id ++ post) = Some id
                   /\ id_pattern (lit "/" ++ id ++ post) = Some id)
        by (split; apply id_pattern_spec; (split; [exact Hid |]); exists post;
            [now left | now right]);
      destruct Hs; congruence.
  - intros H. destruct (get_video_id url) as [id |] eqn:E; [| reflexivity].
    apply search_id_holds in E as (Hid & pre & post & [E | E]);
      destruct (H pre id post Hid); contradiction.
Qed.

Lemma search_id_skip c s :
  id_pattern (c :: s) = None -> search_id (c :: s) = search_id s.
Proof. intros H. cbn [search_id]. now rewrite H. Qed.

Lemma take_id_shaped id post :
  video_id_shaped id -> take_id 11 (id ++ post) = Some id.
Proof.
  intros [Hlen Hall]. apply take_id_spec.
  split; [exact Hlen |]. split; [exact Hall |]. now exists post.
Qed.

(** X16. The id is recovered from the watch URL the other two scripts
    build from it: for every id of the pattern's shape,
    [get_video_id("https://www.youtube.com/watch?v=" + id)] is that id. *)
Theorem get_video_id_of_watch_url id :
  video_id_shaped id -> get_video_id (watch_url id) = Some id.
Proof.
  intros Hid. unfold get_video_id, watch_url.
  pose proof (take_id_shaped id [] Hid) as Ht. rewrite app_nil_r in Ht.
  set (p := lit "https://www.youtube.com/watch?v="). vm_compute in p. subst p.
  cbn [app].
  repeat (rewrite search_id_skip by (vm_compute; reflexivity)).
  cbn [search_id].
  change (id_pattern (118%N :: 61%N :: id)) with (take_id 11 id).
  now rewrite Ht.
Qed.

Lemma get_video_id_of_watch_url_witness :
  get_video_id (lit "https://www.youtube.com/watch?v=dQw4w9WgXcQ")
  = Some (lit "dQw4w9WgXcQ").
Proof.
  apply (get_video_id_of_watch_url (lit "dQw4w9WgXcQ")).
  split; reflexivity.
Defined.

(** ** [fetch_transcript] *)

Lemma split_from_app_space a :
  forall cur b, split_from cur (a ++ SPACE :: b) = split_from cur a ++ split b.
Proof.
  induction a as [| c a IH]; intros cur b.
  - cbn [app split_from]. rewrite is_space_SPACE. destruct cur; reflexivity.
  - cbn [app split_from]. destruct (is_space c).
    + destruct cur; [apply IH |]. cbn [app]. f_equal. apply IH.
    + apply IH.
Qed.

Lemma split_spaced_texts (texts : list str) :
  split (List.concat (map (fun t => t ++ [SPACE]) texts))
  = List.concat (map split texts).
Proof.
  induction texts as [| t texts IH]; [reflexivity |].
  cbn [map List.concat]. rewrite <- app_assoc. cbn [app].
  unfold split at 1. rewrite split_from_app_space. fold (split t).
  now rewrite IH.
Qed.

Lemma spaceless_spaced_app w rest : spaceless w -> spaced rest -> spaced (w ++ rest).
Proof.
  induction w as [| c w IH]; intros Hw Hr; [exact Hr |].
  inversion Hw as [| ? ? Hc Hw']; subst. cbn [app spaced].
  split; [congruence | apply IH; assumption].
Qed.

Lemma join_nonempty w ws : w <> [] -> join (w :: ws) <> [].
Proof.
  intros Hw. rewrite join_cons. destruct ws; [exact Hw |].
  destruct w; [easy | discriminate].
Qed.

Lemma join_headed w ws : wordlike w -> headed (join (w :: ws)).
Proof.
  intros [Hne Hw]. rewrite join_cons.
  destruct w as [| c w]; [easy |]. inversion Hw; subst.
  destruct ws; assumption.
Qed.

Lemma join_tidy ws : Forall wordlike ws -> spaced (join ws) /\ headed (join ws).
Proof.
  induction ws as [| w ws IH]; intros H; [split; exact I |].
  inversion H as [| ? ? Hw Hrest]; subst. split; [| now apply join_headed].
  rewrite join_cons. destruct ws as [| w' ws'].
  - rewrite <- (app_nil_r w). apply spaceless_spaced_app; [apply Hw | exact I].
  - destruct (IH Hrest) as [Hs Hh].
    apply spaceless_spaced_app; [apply Hw |]. split; [| exact Hs].
    intros _. split; [reflexivity |]. split; [| exact Hh].
    inversion Hrest as [| ? ? [Hne' _] _]; subst. now apply join_nonempty.
Qed.

Lemma strip_join ws : Forall wordlike ws -> strip (join ws) = join ws.
Proof.
  intros H. destruct (join_tidy ws H) as [Hs Hh]. unfold strip.
  rewrite (lstrip_id _ Hh). apply rstrip_id, Hs.
Qed.

Lemma concat_wordlike (texts : list str) :
  Forall wordlike (List.concat (map split texts)).
Proof.
  induction texts as [| t texts IH]; [constructor |].
  cbn [map List.concat]. apply Forall_app. split; [apply split_wordlike | exact IH].
Qed.

Section SnippetFacts.

Variable F : Type.
Variable fadd : F -> F -> F.
Variables flt fgt fle fge : F -> F -> bool.

Local Abbreviation included' := (included F fadd flt fgt fle fge).
Local Abbreviation gather' := (gather F fadd flt fgt fle fge).
Local Abbreviation fetched' := (fetched F fadd flt fgt fle fge).

Lemma gather_from start_time end_time snippets :
  forall acc,
    fold_left
      (fun full_text snippet =>
         if included' start_time end_time snippet
         then full_text ++ (snip_text F snippet ++ [SPACE])
         else full_text)
      snippets acc
    = acc ++ List.concat
               (map (fun t => t ++ [SPACE])
                  (map (snip_text F)
                     (List.filter (included' start_time end_time) snippets))).
Proof.
  induction snippets as [| s rest IH]; intros acc; cbn [fold_left List.filter].
  - now rewrite app_nil_r.
  - rewrite IH. destruct (included' start_time end_time s); [| reflexivity].
    cbn [map List.concat]. now rewrite <- app_assoc.
Qed.

(** X17. The transcript built from fetched snippets is the words of the
    texts of the snippets in the time range, in order, joined by single
    spaces, with no whitespace at the ends; [wordCount] is the number of
    those words.  With no time range every snippet contributes. *)
Theorem fetched_is_words start_time end_time snippets :
  let words :=
    List.concat
      (map split
         (map (snip_text F)
            (List.filter (included F fadd flt fgt fle fge start_time end_time) snippets))) in
  fetched_transcript (fetched F fadd flt fgt fle fge start_time end_time snippets) = join words /\
  fetched_wordCount (fetched F fadd flt fgt fle fge start_time end_time snippets) = length words /\
  List.filter (included F fadd flt fgt fle fge None None) snippets = snippets.
Proof.
  cbv zeta.
  assert (Hall : List.filter (included' None None) snippets = snippets).
  { induction snippets as [| s rest IH]; [reflexivity |].
    cbn [List.filter]. change (included' None None s) with true. now rewrite IH. }
  unfold fetched, gather. cbn [fetched_transcript fetched_wordCount].
  rewrite gather_from. cbn [app]. rewrite split_spaced_texts.
  set (texts := map (snip_text F) _).
  pose proof (concat_wordlike texts) as Hw.
  rewrite (strip_join _ Hw), (split_join _ Hw).
  split; [reflexivity |]. split; [reflexivity | exact Hall].
Qed.

(** X18. When the float comparisons are those of ordered numbers ([>=] the
    negation of [<], [<=] the negation of [>]: no NaN among the times), a
    snippet is left out exactly when it ends before the start time or begins
    after the end time; the tests of lines 51-62 never leave out another. *)
Theorem included_iff_overlaps start_time end_time snippet :
  (forall a b, fge a b = negb (flt a b)) ->
  (forall a b, fle a b = negb (fgt a b)) ->
  included F fadd flt fgt fle fge start_time end_time snippet
  = negb match start_time with
         | Some t => flt (fadd (snip_start F snippet) (snip_duration F snippet)) t
         | None => false
         end
    && negb match end_time with
            | Some t => fgt (snip_start F snippet) t
            | None => false
            end.
Proof.
  intros Hge Hle. unfold included.
  destruct start_time as [t0 |], end_time as [t1 |]; rewrite ?Hge, ?Hle;
    repeat match goal with
           | |- context [flt ?a ?b] => destruct (flt a b)
           | |- context [fgt ?a ?b] => destruct (fgt a b)
           end; reflexivity.
Qed.

End SnippetFacts.

Lemma included_iff_overlaps_witness :
  included Q Qplus (fun a b => negb (Qle_bool b a)) (fun a b => negb (Qle_bool a b))
    Qle_bool (fun a b => Qle_bool b a)
    (Some (10 # 1)%Q) (Some (20 # 1)%Q)
    (mkSnippet Q (lit "hello") (8 # 1)%Q (5 # 2)%Q)
  = true.
Proof.
  rewrite (included_iff_overlaps Q Qplus
             (fun a b => negb (Qle_bool b a)) (fun a b => negb (Qle_bool a b))
             Qle_bool (fun a b => Qle_bool b a)).
  - reflexivity.
  - intros a b. now rewrite negb_involutive.
  - intros a b. now rewrite negb_involutive.
Defined.

(** ** The duration text *)

Lemma uint_chars_inj d1 : forall d2, uint_chars d1 = uint_chars d2 -> d1 = d2.
Proof.
  induction d1 as [| d1 IH | d1 IH | d1 IH | d1 IH | d1 IH | d1 IH | d1 IH
                   | d1 IH | d1 IH | d1 IH];
    intros [| d2 | d2 | d2 | d2 | d2 | d2 | d2 | d2 | d2 | d2] H;
    try discriminate H; try reflexivity;
    injection H as H; f_equal; apply IH, H.
Qed.

Lemma uint_chars_no_colon d : Forall (fun c => c <> COLON) (uint_chars d).
Proof.
  induction d; cbn [uint_chars]; constructor; try assumption; discriminate.
Qed.

Lemma str_of_N_inj a b : str_of_N a = str_of_N b -> a = b.
Proof.
  unfold str_of_N. intros H. apply uint_chars_inj in H.
  rewrite <- (DecimalN.Unsigned.of_to a), <- (DecimalN.Unsigned.of_to b).
  now rewrite H.
Qed.

Lemma cut_at_colon (w1 w2 r1 r2 : str) :
  Forall (fun c => c <> COLON) w1 -> Forall (fun c => c <> COLON) w2 ->
  w1 ++ COLON :: r1 = w2 ++ COLON :: r2 -> w1 = w2 /\ r1 = r2.
Proof.
  revert w2. induction w1 as [| x w1 IH]; intros [| y w2] H1 H2 E; simpl in E.
  - injection E as ->. split; reflexivity.
  - injection E as <- _. inversion H2 as [| ? ? Hy _]. now contradict Hy.
  - injection E as -> _. inversion H1 as [| ? ? Hx _]. now contradict Hx.
  - injection E as -> E. inversion H1; inversion H2; subst.
    destruct (IH w2) as [-> ->]; auto.
Qed.

Lemma below_sixty (m : N) :
  (m < 60)%N -> In m (map N.of_nat (seq 0 60)).
Proof.
  intros H. rewrite <- (N2Nat.id m). apply in_map, in_seq. lia.
Qed.

Lemma two_digits_below_sixty (m : N) :
  (m < 60)%N ->
  length (two_digits m) = 2 /\ two_digits_value (two_digits m) = m.
Proof.
  intros H. apply below_sixty in H.
  assert (Hall : forallb
                   (fun m => (length (two_digits m) =? 2)
                             && (two_digits_value (two_digits m) =? m)%N)
                   (map N.of_nat (seq 0 60)) = true) by (vm_compute; reflexivity).
  rewrite forallb_forall in Hall. specialize (Hall m H).
  apply andb_true_iff in Hall as [H1 H2].
  split; [now apply Nat.eqb_eq | now apply N.eqb_eq].
Qed.

Lemma format_duration_eq (d : N) :
  format_duration (Some d) =
  let hours := (d / 3600)%N in
  let minutes := ((d mod 3600) / 60)%N in
  let seconds := (d mod 60)%N in
  if (0 <? hours)%N
  then str_of_N hours ++ COLON :: two_digits minutes ++ COLON :: two_digits seconds
  else str_of_N minutes ++ COLON :: two_digits seconds.
Proof.
  unfold format_duration. destruct (N.eqb_spec d 0) as [-> | Hd]; reflexivity.
Qed.

Lemma clock_parts (d : N) :
  let hours := (d / 3600)%N in
  let minutes := ((d mod 3600) / 60)%N in
  let seconds := (d mod 60)%N in
  (minutes < 60)%N /\ (seconds < 60)%N /\
  d = (hours * 3600 + minutes * 60 + seconds)%N.
Proof.
  cbv zeta.
  pose proof (N.div_mod d 3600 ltac:(lia)) as H1.
  pose proof (N.mod_lt d 3600 ltac:(lia)) as H2.
  pose proof (N.div_mod (d mod 3600) 60 ltac:(lia)) as H3.
  pose proof (N.mod_lt (d mod 3600) 60 ltac:(lia)) as H4.
  pose proof (N.div_mod d 60 ltac:(lia)) as H5.
  pose proof (N.mod_lt d 60 ltac:(lia)) as H6.
  assert (Hs : (d mod 60 = (d mod 3600) mod 60)%N).
  { replace 3600%N with (60 * 60)%N by reflexivity.
    rewrite N.Div0.mod_mul_r.
    rewrite N.mul_comm, N.Div0.mod_add. now rewrite N.Div0.mod_mod. }
  split; [apply N.Div0.div_lt_upper_bound; lia |]. split; [lia |]. lia.
Qed.

(** X19. The duration text determines the duration: two different numbers
    of seconds never get the same text, whether it has the form M:SS or
    H:MM:SS. *)
Theorem format_duration_injective (d1 d2 : N) :
  format_duration (Some d1) = format_duration (Some d2) -> d1 = d2.
Proof.
  rewrite !format_duration_eq. cbv zeta.
  destruct (clock_parts d1) as (Hm1 & Hs1 & E1).
  destruct (clock_parts d2) as (Hm2 & Hs2 & E2).
  set (h1 := (d1 / 3600)%N) in *. set (m1 := ((d1 mod 3600) / 60)%N) in *.
  set (s1 := (d1 mod 60)%N) in *.
  set (h2 := (d2 / 3600)%N) in *. set (m2 := ((d2 mod 3600) / 60)%N) in *.
  set (s2 := (d2 mod 60)%N) in *.
  destruct (two_digits_below_sixty m1 Hm1) as [Lm1 Vm1].
  destruct (two_digits_below_sixty s1 Hs1) as [Ls1 Vs1].
  destruct (two_digits_below_sixty m2 Hm2) as [Lm2 Vm2].
  destruct (two_digits_below_sixty s2 Hs2) as [Ls2 Vs2].
  destruct (N.ltb_spec 0 h1) as [Hh1 | Hh1];
    destruct (N.ltb_spec 0 h2) as [Hh2 | Hh2]; intros E;
    apply cut_at_colon in E as [Ea Eb];
    try apply uint_chars_no_colon.
  - apply str_of_N_inj in Ea.
    apply app_inj_1 in Eb as [Em Es]; [| congruence].
    injection Es as Es.
    assert (m1 = m2) by congruence. assert (s1 = s2) by congruence. lia.
  - apply (f_equal length) in Eb. rewrite length_app in Eb. simpl in Eb. lia.
  - apply (f_equal length) in Eb. rewrite length_app in Eb. simpl in Eb. lia.
  - apply str_of_N_inj in Ea. assert (s1 = s2) by congruence. lia.
Qed.

Lemma format_duration_injective_witness :
  format_duration (Some 3725%N) = lit "1:02:05" /\ 3725%N = 3725%N.
Proof.
  split; [reflexivity |].
  apply (format_duration_injective 3725 3725). reflexivity.
Defined.

(** ** When is the result empty? *)

Lemma all_rejected_stays lower segments :
  forall st,
    Forall (fun s => QualityFilter_rejects s = true) segments ->
    run_from lower st segments = st.
Proof.
  induction segments as [| segment rest IH]; intros st H; [reflexivity |].
  inversion H as [| ? ? Hs Hrest]; subst.
  rewrite run_from_cons, process_segment_eq. cbv zeta. rewrite Hs.
  apply IH, Hrest.
Qed.

Lemma first_passing_accepted lower segment :
  QualityFilter_rejects segment = false ->
  fst (process_segment lower initial segment) = Accepted.
Proof.
  intros Hq. rewrite process_segment_eq. cbv zeta. rewrite Hq.
  pose proof (quality_pass_nonempty segment Hq) as Hne.
  cbn [initial last_segment_text full_text is_repetitive nonempty].
  unfold is_exact_repetition.
  destruct (strip (text segment)) as [| c t]; [easy |]. reflexivity.
Qed.

Lemma accepted_grows lower st segment :
  fst (process_segment lower st segment) = Accepted ->
  segments_list (snd (process_segment lower st segment)) <> [].
Proof.
  case_process lower st segment; cbn [fst snd]; try discriminate.
  intros _. cbn [append_segment segments_list].
  destruct (segments_list st); discriminate.
Qed.

Lemma no_segments_iff lower segs :
  segments_list (run lower segs) = []
  <-> Forall (fun s => QualityFilter_rejects s = true) segs.
Proof.
  split.
  - induction segs as [| segment rest IH]; intros H; [constructor |].
    destruct (QualityFilter_rejects segment) eqn:Hq.
    + constructor; [exact Hq |]. apply IH.
      unfold run in *. rewrite run_from_cons, process_segment_eq in H.
      cbv zeta in H. rewrite Hq in H. exact H.
    + exfalso. unfold run in H. rewrite run_from_cons in H.
      pose proof (accepted_grows lower initial segment
                    (first_passing_accepted lower segment Hq)) as Hne.
      pose proof (segments_grow lower rest
                    (snd (process_segment lower initial segment))) as [k Hk].
      rewrite Hk in H. apply app_eq_nil in H as [H _]. contradiction.
  - intros H. unfold run. now rewrite (all_rejected_stays lower segs initial H).
Qed.

Lemma ink_app a b : ink (a ++ b) = ink a ++ ink b.
Proof. unfold ink. apply List.filter_app. Qed.

Lemma headed_ink s : s <> [] -> headed s -> ink s <> [].
Proof.
  destruct s as [| c t]; [easy |]. intros _ Hc. simpl in Hc.
  now rewrite (ink_keep c t Hc).
Qed.

Lemma strip_headed s : headed (strip s).
Proof. apply rstrip_headed, lstrip_headed. Qed.

Lemma accepted_text_inked lower segments :
  forall st,
    (segments_list st <> [] -> ink (last_segment_text st) <> []) ->
    segments_list (run_from lower st segments) <> [] ->
    ink (last_segment_text (run_from lower st segments)) <> [].
Proof.
  induction segments as [| segment rest IH]; intros st H; [exact H |].
  rewrite run_from_cons. apply IH.
  case_process lower st segment; cbn [snd]; try exact H.
  intros _. cbn [append_segment last_segment_text].
  apply headed_ink; [| apply strip_headed].
  apply quality_pass_nonempty. assumption.
Qed.

Lemma dedup_loop_nonempty words : words <> [] -> dedup_loop words 0 [] <> [].
Proof.
  intros Hne. rewrite dedup_loop_step.
  destruct (lt_dec 0 (length words)) as [_ | Hn];
    [| destruct words; [easy | simpl in Hn; lia]].
  destruct (find_repetition words 0) as [L |] eqn:Ef.
  - destruct (dedup_loop_sublist words (length words) (0 + L * 2)
                ([] ++ slice words 0 (0 + L))) as (out & -> & _); [lia |].
    unfold find_repetition in Ef. apply List.find_some in Ef as [Hin Hrep].
    unfold repeats_at in Hrep. apply andb_true_iff in Hrep as [Hlen _].
    apply Nat.leb_le in Hlen. unfold slice. cbn [app drop].
    destruct words as [| w rest]; [easy |].
    assert (2 <= L) by (simpl in Hin; lia).
    destruct L as [| L]; [lia |]. discriminate.
  - destruct (dedup_loop_sublist words (length words) (0 + 1)
                ([] ++ [nth 0 words []])) as (out & -> & _); [lia |].
    discriminate.
Qed.

(** X20. The result is empty exactly when every segment of the stream fails
    the quality tests: then and only then there are no segments in it, and
    then and only then the transcript is the empty string. *)
Theorem empty_result_iff lower lang segs :
  let t := finish lang (run lower segs) in
  (segments t = [] <-> Forall (fun s => QualityFilter_rejects s = true) segs) /\
  (transcript t = [] <-> Forall (fun s => QualityFilter_rejects s = true) segs).
Proof.
  cbv zeta. cbn [finish segments transcript].
  split; [apply no_segments_iff |].
  rewrite <- (no_segments_iff lower segs). split.
  - intros Ht. destruct (segments_list (run lower segs)) eqn:Es; [reflexivity |].
    exfalso.
    assert (Hink : ink (last_segment_text (run lower segs)) <> []).
    { apply (accepted_text_inked lower segs initial); [easy |].
      change (segments_list (run lower segs) <> []). rewrite Es. discriminate. }
    assert (Hend : last_segment_text (run lower segs) `suffix_of` full_text (run lower segs))
      by (apply (text_ends_from lower segs initial); reflexivity).
    destruct Hend as [k Hk].
    assert (Hfull : ink (normalize (full_text (run lower segs))) <> []).
    { rewrite ink_normalize, Hk, ink_app. intros E.
      apply app_eq_nil in E as [_ E]. contradiction. }
    assert (Hwords : split (normalize (full_text (run lower segs))) <> []).
    { intros E. apply Hfull.
      destruct (normalize_shaped (full_text (run lower segs))) as (_ & _ & Hj).
      rewrite <- Hj, E. reflexivity. }
    apply dedup_loop_nonempty in Hwords.
    unfold dedup_phrases in Ht.
    destruct (dedup_loop (split (normalize (full_text (run lower segs)))) 0 [])
      as [| w ws] eqn:Ed; [easy |].
    assert (Hw : Forall wordlike (w :: ws)).
    { rewrite <- Ed. apply (sublist_wordlike _ _ (dedup_loop_kept _)).
      apply split_wordlike. }
    inversion Hw as [| ? ? [Hne _] _]; subst.
    now apply (join_nonempty w ws Hne).
  - intros Es.
    destruct (nothing_accepted lower segs initial) as [Hf _].
    { destruct (counters_run_from lower segs initial) as [_ Ha].
      destruct (assembled_run_from lower segs initial) as [_ Hc];
        [split; reflexivity |].
      fold (run lower segs) in Ha, Hc. rewrite Hc, Es in Ha. cbn in Ha.
      clear -Ha. induction (trace_from lower initial segs) as [| o l IH];
        [reflexivity |].
      destruct o; cbn in Ha |- *; try apply IH; try exact Ha; lia. }
    fold (run lower segs) in Hf. rewrite Hf. reflexivity.
Qed.

(** X21. The transcript can be recomputed from the result's own segment
    list: it is the phrase pass of the three rewrites of the segment texts
    joined by the spacing rule. *)
Theorem transcript_from_segments lower lang segs :
  let t := finish lang (run lower segs) in
  transcript t = dedup_phrases (normalize (assemble (map text (segments t)))).
Proof.
  cbv zeta. cbn [finish transcript segments].
  destruct (assembled_run_from lower segs initial) as [Hf _];
    [split; reflexivity |].
  fold (run lower segs) in Hf. now rewrite <- Hf.
Qed.

(** ** The downloaded file *)

Lemma literal_match_progressive old new :
  old <> [] -> progressive (literal_match old new).
Proof.
  intros Hne s repl after. unfold literal_match.
  destruct (starts_with old s) eqn:E; [| discriminate]. intros [= <- <-].
  apply starts_with_spec in E as [post ->].
  rewrite drop_app_length, length_app. destruct old; [easy | simpl; lia].
Qed.

Lemma str_replace_cons c rest old new :
  old <> [] ->
  str_replace (c :: rest) old new =
  if starts_with old (c :: rest)
  then new ++ str_replace (drop (length old) (c :: rest)) old new
  else c :: str_replace rest old new.
Proof.
  intros Hne. unfold str_replace.
  rewrite re_sub_cons by now apply literal_match_progressive.
  unfold literal_match. destruct (starts_with old (c :: rest)); reflexivity.
Qed.

Lemma str_replace_same s old : old <> [] -> str_replace s old old = s.
Proof.
  intros Hne. induction s as [s IH] using str_length_ind.
  destruct s as [| c rest]; [reflexivity |].
  rewrite (str_replace_cons c rest old old Hne).
  destruct (starts_with old (c :: rest)) eqn:E.
  - apply starts_with_spec in E as [post E]. rewrite E, drop_app_length.
    rewrite IH; [reflexivity |].
    rewrite E, length_app. destruct old; [easy | simpl; lia].
  - f_equal. apply IH. simpl. lia.
Qed.

(** X22. The file [download_audio] reports always exists; when the expected
    file exists it is the one reported (the first [replace] changes nothing),
    and "Downloaded file not found" comes exactly when neither that file nor
    any of the four fallback names exists. *)
Theorem resolve_output_exists path_exists output_path :
  (forall p, resolve_output path_exists output_path = Some p -> path_exists p = true) /\
  (path_exists output_path = true ->
   resolve_output path_exists output_path = Some output_path) /\
  (resolve_output path_exists output_path = None
   <-> path_exists output_path = false /\
       Forall (fun ext =>
                 path_exists (str_replace output_path (lit ".mp3") [] ++ ext) = false)
              fallback_extensions).
Proof.
  unfold resolve_output.
  rewrite (str_replace_same output_path (lit ".mp3")) by discriminate.
  set (base_name := str_replace output_path (lit ".mp3") []).
  destruct (path_exists output_path) eqn:Eo; cbn [negb].
  - rewrite Eo. cbn [negb]. split; [intros p [= <-]; exact Eo |].
    split; [reflexivity |]. split; [discriminate | intros [H _]; discriminate H].
  - destruct (List.find path_exists (map (fun ext => base_name ++ ext) fallback_extensions))
      as [candidate |] eqn:Ef.
    + apply List.find_some in Ef as [Hin Hex]. rewrite Hex. cbn [negb].
      split; [intros p [= <-]; exact Hex |]. split; [discriminate |].
      split; [discriminate |]. intros [_ Hall]. exfalso.
      apply in_map_iff in Hin as (ext & <- & Hin).
      rewrite Forall_forall in Hall. apply list_elem_of_In in Hin.
      specialize (Hall ext Hin). congruence.
    + rewrite Eo. cbn [negb]. split; [discriminate |]. split; [discriminate |].
      split; [| reflexivity]. intros _. split; [reflexivity |].
      rewrite Forall_forall. intros ext Hin. apply list_elem_of_In in Hin.
      apply (List.find_none _ _ Ef (base_name ++ ext)).
      apply in_map_iff. now exists ext.
Qed.

Lemma mp3_prefix_local c (b : str) :
  starts_with (lit ".mp3") (c :: b ++ lit ".mp3")
  = starts_with (lit ".mp3") (c :: b ++ lit ".mp").
Proof.
  destruct b as [| b1 [| b2 [| b3 b']]]; cbn;
    repeat match goal with
           | |- context [(?x =? ?y)%N] => destruct (x =? y)%N; cbn; try reflexivity
           end.
Qed.

Lemma str_replace_suffix new base :
  contains (base ++ lit ".mp") (lit ".mp3") = false ->
  str_replace (base ++ lit ".mp3") (lit ".mp3") new = base ++ new.
Proof.
  induction base as [| c b IH]; intros H.
  - cbn [app]. change (lit ".mp3") with (46 :: lit "mp3")%N at 1.
    rewrite str_replace_cons by discriminate.
    change (starts_with (lit ".mp3") (46%N :: lit "mp3")) with true. cbv iota.
    change (drop (length (lit ".mp3")) (46%N :: lit "mp3")) with (@nil char).
    apply app_nil_r.
  - cbn [app contains] in H. apply orb_false_elim in H as [Hs Hc].
    cbn [app]. rewrite str_replace_cons by discriminate.
    rewrite mp3_prefix_local, Hs. f_equal. apply IH, Hc.
Qed.

(** X23. For a temporary path that ends in ".mp3" and has no other ".mp3"
    in it, the download template is the path with ".%(ext)s" in place of the
    ending, and the first fallback name tried is the path itself. *)
Theorem outtmpl_of_temp_path base :
  contains (base ++ lit ".mp") (lit ".mp3") = false ->
  outtmpl (base ++ lit ".mp3") = base ++ lit ".%(ext)s" /\
  map (fun ext => str_replace (base ++ lit ".mp3") (lit ".mp3") [] ++ ext)
      fallback_extensions
  = [base ++ lit ".mp3"; base ++ lit ".m4a"; base ++ lit ".webm"; base ++ lit ".opus"].
Proof.
  intros H. unfold outtmpl. rewrite !(str_replace_suffix _ base H).
  rewrite app_nil_r. split; reflexivity.
Qed.

Lemma outtmpl_of_temp_path_witness :
  outtmpl (lit "/tmp/tmpab12.mp3") = lit "/tmp/tmpab12.%(ext)s".
Proof.
  apply (outtmpl_of_temp_path (lit "/tmp/tmpab12")). reflexivity.
Defined.

(** ** The same words in another order *)

Lemma truediv_self (n : Z) :
  (0 < n)%Z -> float_gt (truediv n n) float_0_7 = true.
Proof.
  intros Hn.
  destruct (scale_spec n n ltac:(lia)) as (Hk & Hlo & Hhi).
  assert (Hk52 : scale n n = 52%Z).
  { assert (H1 : (2 ^ scale n n < 2 ^ 53)%Z) by nia.
    apply Z.pow_lt_mono_r_iff in H1; lia. }
  change float_0_7 with (6305039478318694 # 9007199254740992)%Q.
  unfold float_gt, truediv. rewrite negb_true_iff, <- not_true_iff_false, Qle_bool_iff.
  destruct (Z.eqb_spec n 0) as [-> | _]; [lia |].
  rewrite Hk52.
  destruct (round_half_even_spec (n * 2 ^ 52) n Hn) as (_ & _ & Hround).
  assert (Hdiv : (n * 2 ^ 52 / n = 2 ^ 52)%Z).
  { rewrite Z.mul_comm. apply Z.div_mul. lia. }
  assert (Hmod : ((n * 2 ^ 52) mod n = 0)%Z).
  { rewrite Z.mul_comm. apply Z.mod_mul. lia. }
  rewrite Hdiv, Hmod in Hround.
  unfold Qle. cbn [Qnum Qden].
  destruct Hround as [[-> _] | [_ [Hc | [Hc _]]]]; [| lia | lia].
  vm_compute. intros H. apply H. reflexivity.
Qed.

(** X24. A segment with the same set of lower-cased words as the last
    accepted text, in whatever order and however often repeated, is skipped
    as a repetition as soon as it passes the quality tests; this holds for
    token sets of every size. *)
Theorem same_words_are_repetition lower st segment :
  QualityFilter_rejects segment = false ->
  last_segment_text st <> [] ->
  word_set lower (last_segment_text st) <> ∅ ->
  word_set lower (strip (text segment)) = word_set lower (last_segment_text st) ->
  fst (process_segment lower st segment) = NearDuplicate.
Proof.
  intros Hq Hl Hne Hsame. rewrite process_segment_eq. cbv zeta. rewrite Hq.
  assert (Hrep : is_repetitive lower (last_segment_text st) (strip (text segment)) = true).
  { assert (Hn : nonempty (last_segment_text st) = true)
      by (destruct (last_segment_text st); [contradiction | reflexivity]).
    unfold is_repetitive. rewrite Hn, Hsame.
    assert (Hsize : size (word_set lower (last_segment_text st)) <> 0).
    { rewrite size_non_empty_iff. intros E%leibniz_equiv. contradiction. }
    destruct (Nat.eqb_spec (size (word_set lower (last_segment_text st))) 0);
      [contradiction |].
    cbn [negb andb]. unfold similarity.
    rewrite (intersection_idemp_L (word_set lower (last_segment_text st))).
    rewrite (union_idemp_L (word_set lower (last_segment_text st))).
    apply truediv_self. lia. }
  now rewrite Hrep.
Qed.

Lemma same_words_are_repetition_witness :
  fst (process_segment ascii_lower (run ascii_lower [seg "hello big world"])
         (seg "World world BIG hello")) = NearDuplicate.
Proof.
  apply (same_words_are_repetition ascii_lower
           (run ascii_lower [seg "hello big world"]) (seg "World world BIG hello")).
  - reflexivity.
  - discriminate.
  - intros E. apply (f_equal size) in E. vm_compute in E. discriminate E.
  - vm_compute. reflexivity.
Defined.
